(** * EC::Manager — an entity/component table, verified against its specification

    The development embeds [src/EC/Manager.hpp] shallowly: every member
    function of [EC::Manager] becomes a function on an explicit [Manager]
    record, in an error monad whose faults are the ones the C++ code can
    raise ([std::out_of_range] from [std::vector::at], undefined behaviour
    from an unchecked [operator[]]).  Table indices are [nat]: a
    [std::size_t] cannot wrap before the vectors exhaust memory. *)

From Stdlib Require Import NArith Lia.
From stdpp Require Import base decidable option list numbers functions sets sorting
  relations finite.

(** ** Faults and the error monad *)

Inductive Fault : Type :=
  | OutOfRange   (* std::out_of_range thrown by std::vector::at *)
  | Undefined    (* operator[] outside the vector: undefined behaviour *)
  | OutOfFuel.   (* artefact of the loop encoding; shown unreachable *)

Inductive result (A : Type) : Type :=
  | Ok (a : A)
  | Fail (f : Fault).
Arguments Ok {A} a.
Arguments Fail {A} f.

#[global] Instance result_ret : MRet result := λ A a, Ok a.
#[global] Instance result_bind : MBind result := λ A B k r,
  match r with
  | Ok a => k a
  | Fail f => Fail f
  end.

Definition is_Ok {A} (r : result A) : Prop := ∃ a, r = Ok a.

(** ** std::vector *)

(** [v.at(i)] *)
Definition vector_at {A} (v : list A) (i : nat) : result A :=
  match v !! i with
  | Some x => Ok x
  | None => Fail OutOfRange
  end.

(** [v[i]] used as an rvalue *)
Definition vector_index {A} (v : list A) (i : nat) : result A :=
  match v !! i with
  | Some x => Ok x
  | None => Fail Undefined
  end.

(** [v[i] = x] *)
Definition vector_assign {A} (v : list A) (i : nat) (x : A) : result (list A) :=
  if decide (i < length v) then Ok (<[i := x]> v) else Fail Undefined.

(** [v.resize(n)]: truncates, or appends value-initialised elements [d]. *)
Definition vector_resize {A} (v : list A) (n : nat) (d : A) : list A :=
  take n v ++ replicate (n - length v) d.

(** ** Meta helpers and the bitset *)

(** Modelled from the spec: [EC::Meta::IndexOf] (Meta/IndexOf.hpp is not part
    of the sources at hand; src/test/MetaTest.cpp fixes its results): the
    position of a type in a type list. *)
Fixpoint IndexOf {A} `{EqDecision A} (x : A) (l : list A) : nat :=
  match l with
  | [] => 0
  | y :: l' => if decide (x = y) then 0 else S (IndexOf x l')
  end.

(** Modelled from the spec: [EC::Meta::Contains] (Meta/Contains.hpp is not
    part of the sources at hand; src/test/MetaTest.cpp fixes its results):
    whether a type occurs in a type list. *)
Fixpoint Contains {A} `{EqDecision A} (x : A) (l : list A) : bool :=
  match l with
  | [] => false
  | y :: l' => if decide (x = y) then true else Contains x l'
  end.

(** [EC::Meta::ContainsAllHelper] (src/EC/Meta/ContainsAll.hpp): [true_type]
    for the empty list; for [TTypeListA<Type, Types...>] the
    [std::conditional] on [Contains<Type, TTypeListB>::value]. *)
Fixpoint ContainsAllHelper {A} `{EqDecision A} (a b : list A) : bool :=
  match a with
  | [] => true
  | x :: a' => if Contains x b then ContainsAllHelper a' b else false
  end.

(** [EC::Meta::ContainsAll]:
    [std::integral_constant<bool, ContainsAllHelper<A, B>::value>] *)
Definition ContainsAll {A} `{EqDecision A} (a b : list A) : bool :=
  ContainsAllHelper a b.

(** [#define EC_INIT_ENTITIES_SIZE 256], [#define EC_GROW_SIZE_AMOUNT 256] *)
Definition EC_INIT_ENTITIES_SIZE : nat := 256.
Definition EC_GROW_SIZE_AMOUNT : nat := 256.

(** Modelled from the spec: [EC::Bitset] (Bitset.hpp is not part of the
    sources at hand): a [std::bitset] of width |components| + |tags|, here
    the binary digits of an [N]; no operation used by the manager sets a
    digit at or above the width. *)
Abbreviation BitsetType := N.

(** [bitset.reset()] *)
Definition Bitset_reset (b : BitsetType) : BitsetType := 0%N.

(** [bitset[pos] = value] *)
Definition Bitset_set (b : BitsetType) (pos : nat) (value : bool) : BitsetType :=
  if value then N.setbit b (N.of_nat pos) else N.clearbit b (N.of_nat pos).

(** [bitset[pos]] *)
Definition Bitset_test (b : BitsetType) (pos : nat) : bool :=
  N.testbit b (N.of_nat pos).

(** Entity: isAlive, dataIndex, ComponentsTags Info
    ([std::tuple<bool, std::size_t, BitsetType>]) *)
Abbreviation EntitiesTupleType := (bool * nat * BitsetType)%type.
Definition get_bool (e : EntitiesTupleType) : bool := e.1.1.
Definition get_size_t (e : EntitiesTupleType) : nat := e.1.2.
Definition get_Bitset (e : EntitiesTupleType) : BitsetType := e.2.
Definition set_bool (v : bool) (e : EntitiesTupleType) : EntitiesTupleType :=
  (v, get_size_t e, get_Bitset e).
Definition set_Bitset (b : BitsetType) (e : EntitiesTupleType) : EntitiesTupleType :=
  (get_bool e, get_size_t e, b).
Abbreviation EntitiesType := (list EntitiesTupleType).

(** Outcome of the inner loop of [cleanup]. *)
Inductive InnerLoop : Type :=
  | Returned (es : EntitiesType)                (* currentSize = 0; return; *)
  | Continue (es : EntitiesType) (rhs : nat).   (* loop left with alive rhs *)

Section Manager.
(** The template parameters [ComponentsList] and [TagsList]: two finite
    types, whose enumerations are the type lists. *)
Context {Component Tag : Type}.
Context `{FinC : Finite Component} `{FinT : Finite Tag}.
(** Component values (one carrier for all component types), constructor
    arguments, and the state a handler captures by reference. *)
Context {Val Args W : Type}.
(** [Component component(std::forward<Args>(args)...)] and the default
    constructor [std::vector::resize] uses. *)
Context (construct : Component → Args → Val) (default_value : Component → Val).

Definition ComponentsList : list Component := enum Component.
Definition TagsList : list Tag := enum Tag.

(** Modelled from the spec: [getComponentBit<C>()] is the digit at
    [IndexOf<C, ComponentsList>], [getTagBit<T>()] the digit at
    [ComponentsList::size + IndexOf<T, TagsList>] (components first, then
    tags, in declaration order). *)
Definition componentPos (c : Component) : nat := IndexOf c ComponentsList.
Definition tagPos (t : Tag) : nat := length ComponentsList + IndexOf t TagsList.
Definition getComponentBit (b : BitsetType) (c : Component) : bool :=
  Bitset_test b (componentPos c).
Definition getTagBit (b : BitsetType) (t : Tag) : bool :=
  Bitset_test b (tagPos t).

(** A signature: a type list mixing component and tag types. *)
Definition Signature : Type := list (Component + Tag).

(** Modelled from the spec: [EC::Meta::Matching<Signature, ComponentsList>]
    (Meta/Matching.hpp is not part of the sources at hand): the component
    types of the signature, in the signature's order; likewise for tags. *)
Definition MatchingComponents (s : Signature) : list Component :=
  omap (λ k, match k with inl c => Some c | inr _ => None end) s.
Definition MatchingTags (s : Signature) : list Tag :=
  omap (λ k, match k with inl _ => None | inr t => Some t end) s.

(** Modelled from the spec: [BitsetType::generateBitset<Signature>()], the
    target bitset with the digit of every kind of the signature set. *)
Definition generateBitset (s : Signature) : BitsetType :=
  let b := foldl (λ b c, Bitset_set b (componentPos c) true) 0%N (MatchingComponents s) in
  foldl (λ b t, Bitset_set b (tagPos t) true) b (MatchingTags s).

(** [ComponentsStorage], a [std::tuple<std::vector<Types>...>] read with
    [std::get<std::vector<C>>], is one vector per component type:
    [Component → list Val].  A [Component&] into the storage is the vector
    and the position. *)
Definition Ref : Type := Component * nat.
Definition load (st : Component → list Val) (r : Ref) : option Val := st r.1 !! r.2.
Definition store (st : Component → list Val) (r : Ref) (v : Val) : Component → list Val :=
  <[r.1 := <[r.2 := v]> (st r.1)]> st.

(** A handler [function(entityID, Component&...)]: it receives the id and
    the references, reads component values, and yields the assignments it
    makes through references together with its captured state.  It has no
    access to the entity table (spec, section 5). *)
Definition Function : Type :=
  nat → list Ref → (Component → list Val) → W → list (Ref * Val) * W.

(** The lambda stored by [addForMatchingFunction], by its captures
    [[function, signatureBitset, helper, this]] ([this] is the manager the
    closure is run on). *)
Record Closure : Type := {
  cl_function : Function;
  cl_signatureBitset : BitsetType;
  cl_helper : list Component
}.

Record Manager : Type := {
  entities : EntitiesType;
  componentsStorage : Component → list Val;
  currentCapacity : nat;
  currentSize : nat;
  forMatchingFunctions : list Closure
}.

Definition with_entities (es : EntitiesType) (m : Manager) : Manager :=
  {| entities := es; componentsStorage := componentsStorage m;
     currentCapacity := currentCapacity m; currentSize := currentSize m;
     forMatchingFunctions := forMatchingFunctions m |}.
Definition with_storage (st : Component → list Val) (m : Manager) : Manager :=
  {| entities := entities m; componentsStorage := st;
     currentCapacity := currentCapacity m; currentSize := currentSize m;
     forMatchingFunctions := forMatchingFunctions m |}.
Definition with_size (n : nat) (m : Manager) : Manager :=
  {| entities := entities m; componentsStorage := componentsStorage m;
     currentCapacity := currentCapacity m; currentSize := n;
     forMatchingFunctions := forMatchingFunctions m |}.

(** *** resize *)

(** [for(i = currentCapacity; i < newCapacity; ++i)
       entities[i] = std::make_tuple(false, i, BitsetType{});]
    with [n] the iterations left. *)
Fixpoint resize_loop (n i : nat) (es : EntitiesType) : result EntitiesType :=
  match n with
  | 0 => Ok es
  | S n' => es' ← vector_assign es i (false, i, 0%N); resize_loop n' (S i) es'
  end.

Definition resize (newCapacity : nat) (m : Manager) : result Manager :=
  if decide (newCapacity ≤ currentCapacity m) then Ok m
  else
    let st := foldl (λ st t, <[t := vector_resize (st t) newCapacity (default_value t)]> st)
                    (componentsStorage m) ComponentsList in
    let es := vector_resize (entities m) newCapacity (false, 0, 0%N) in
    es' ← resize_loop (newCapacity - currentCapacity m) (currentCapacity m) es;
    Ok {| entities := es'; componentsStorage := st;
          currentCapacity := newCapacity; currentSize := currentSize m;
          forMatchingFunctions := forMatchingFunctions m |}.

(** The fields before the constructor body runs, and [Manager()]. *)
Definition Manager_fields : Manager :=
  {| entities := []; componentsStorage := λ _, [];
     currentCapacity := 0; currentSize := 0; forMatchingFunctions := [] |}.
Definition Manager_new : result Manager := resize EC_INIT_ENTITIES_SIZE Manager_fields.

(** *** entities *)

Definition addEntity (m : Manager) : result (nat * Manager) :=
  m1 ← (if decide (currentSize m = currentCapacity m)
        then resize (currentCapacity m + EC_GROW_SIZE_AMOUNT) m
        else Ok m);
  e ← vector_index (entities m1) (currentSize m1);
  es ← vector_assign (entities m1) (currentSize m1) (set_bool true e);
  Ok (currentSize m1, with_size (S (currentSize m1)) (with_entities es m1)).

Definition deleteEntity (index : nat) (m : Manager) : result Manager :=
  e ← vector_at (entities m) index;
  Ok (with_entities (<[index := set_bool false e]> (entities m)) m).

Definition hasEntity (index : nat) (m : Manager) : bool :=
  bool_decide (index < currentSize m).

Definition isAlive (index : nat) (m : Manager) : result bool :=
  if hasEntity index m
  then e ← vector_at (entities m) index; Ok (get_bool e)
  else Ok false.

Definition getEntityInfo (index : nat) (m : Manager) : result EntitiesTupleType :=
  vector_at (entities m) index.

Definition getEntityData (c : Component) (index : nat) (m : Manager) : result Ref :=
  e ← vector_at (entities m) index;
  _ ← vector_at (componentsStorage m c) (get_size_t e);
  Ok (c, get_size_t e).

Definition getEntityComponent (c : Component) (index : nat) (m : Manager) : result Ref :=
  getEntityData c index m.

Definition hasComponent (c : Component) (index : nat) (m : Manager) : result bool :=
  e ← vector_at (entities m) index;
  Ok (getComponentBit (get_Bitset e) c).

Definition hasTag (t : Tag) (index : nat) (m : Manager) : result bool :=
  e ← vector_at (entities m) index;
  Ok (getTagBit (get_Bitset e) t).

(** *** cleanup *)

(** [while(!std::get<bool>(entities[rhs]))
      { if(rhs == 0) { currentSize = 0; return; }
        std::get<BitsetType>(entities[rhs]).reset(); --rhs; }] *)
Fixpoint cleanup_inner (es : EntitiesType) (rhs : nat) : result InnerLoop :=
  e ← vector_index es rhs;
  if get_bool e then Ok (Continue es rhs)
  else
    match rhs with
    | 0 => Ok (Returned es)
    | S rhs' =>
        es' ← vector_assign es rhs (set_Bitset (Bitset_reset (get_Bitset e)) e);
        cleanup_inner es' rhs'
    end.

(** [while(lhs < rhs) { ... }  currentSize = rhs + 1;]: the entity vector
    and the new [currentSize]; one unit of fuel per iteration. *)
Fixpoint cleanup_outer (fuel : nat) (es : EntitiesType) (lhs rhs : nat)
  : result (EntitiesType * nat) :=
  if decide (lhs < rhs) then
    match fuel with
    | 0 => Fail OutOfFuel
    | S fuel' =>
        inner ← cleanup_inner es rhs;
        match inner with
        | Returned es1 => Ok (es1, 0)
        | Continue es1 rhs1 =>
            if decide (rhs1 ≤ lhs) then Ok (es1, rhs1 + 1)
            else
              el ← vector_index es1 lhs;
              if negb (get_bool el) then
                (* std::swap(entities[lhs], entities.at(rhs)) *)
                er ← vector_at es1 rhs1;
                let es2 := <[rhs1 := el]> (<[lhs := er]> es1) in
                (* std::get<BitsetType>(entities[rhs]).reset() *)
                e ← vector_index es2 rhs1;
                es3 ← vector_assign es2 rhs1 (set_Bitset (Bitset_reset (get_Bitset e)) e);
                cleanup_outer fuel' es3 (lhs + 1) (rhs1 - 1)
              else cleanup_outer fuel' es1 (lhs + 1) rhs1
        end
    end
  else Ok (es, rhs + 1).

Definition cleanup (m : Manager) : result Manager :=
  if decide (currentSize m = 0) then Ok m
  else
    r ← cleanup_outer (currentSize m) (entities m) 0 (currentSize m - 1);
    Ok (with_size r.2 (with_entities r.1 m)).

(** *** components and tags *)

(** The guard [!hasEntity(entityID) || !isAlive(entityID)]. *)
Definition invalidEntity (entityID : nat) (m : Manager) : result bool :=
  if negb (hasEntity entityID m) then Ok true
  else a ← isAlive entityID m; Ok (negb a).

(** [std::get<BitsetType>(entities[entityID])[pos] = value] *)
Definition assignBit (entityID pos : nat) (value : bool) (m : Manager) : result Manager :=
  e ← vector_index (entities m) entityID;
  es ← vector_assign (entities m) entityID
         (set_Bitset (Bitset_set (get_Bitset e) pos value) e);
  Ok (with_entities es m).

Definition addComponent (c : Component) (entityID : nat) (args : Args) (m : Manager)
  : result Manager :=
  inv ← invalidEntity entityID m;
  if (inv : bool) then Ok m
  else
    let component := construct c args in
    m1 ← assignBit entityID (componentPos c) true m;
    e ← vector_index (entities m1) entityID;
    v ← vector_assign (componentsStorage m1 c) (get_size_t e) component;
    Ok (with_storage (<[c := v]> (componentsStorage m1)) m1).

Definition removeComponent (c : Component) (entityID : nat) (m : Manager) : result Manager :=
  inv ← invalidEntity entityID m;
  if (inv : bool) then Ok m else assignBit entityID (componentPos c) false m.

Definition addTag (t : Tag) (entityID : nat) (m : Manager) : result Manager :=
  inv ← invalidEntity entityID m;
  if (inv : bool) then Ok m else assignBit entityID (tagPos t) true m.

Definition removeTag (t : Tag) (entityID : nat) (m : Manager) : result Manager :=
  inv ← invalidEntity entityID m;
  if (inv : bool) then Ok m else assignBit entityID (tagPos t) false m.

(** *** forMatchingSignature *)

Definition apply_writes (st : Component → list Val) (ws : list (Ref * Val)) : Component → list Val :=
  foldl (λ st rv, store st rv.1 rv.2) st ws.

(** The call [function(entityID, refs...)] and its effect on the storage. *)
Definition invoke (function : Function) (entityID : nat) (refs : list Ref)
    (m : Manager) (w : W) : Manager * W :=
  let r := function entityID refs (componentsStorage m) w in
  (with_storage (apply_writes (componentsStorage m) r.1) m, r.2).

(** [ForMatchingSignatureHelper<Types...>::call]:
    [function(entityID, ctype.template getEntityData<Types>(entityID)...)] *)
Definition ForMatchingSignatureHelper_call (Types : list Component) (entityID : nat)
    (function : Function) (m : Manager) (w : W) : result (Manager * W) :=
  refs ← mapM (λ t, getEntityData t entityID m) Types;
  Ok (invoke function entityID refs m w).

(** [callInstance] forwards to [call]. *)
Definition ForMatchingSignatureHelper_callInstance (Types : list Component)
    (entityID : nat) (function : Function) (m : Manager) (w : W) : result (Manager * W) :=
  ForMatchingSignatureHelper_call Types entityID function m w.

(** [for(std::size_t i = 0; i < currentSize; ++i) { ... }], with [n] the
    iterations left. *)
Fixpoint forMatchingSignature_loop (n i : nat) (signatureBitset : BitsetType)
    (Types : list Component) (function : Function) (m : Manager) (w : W)
  : result (Manager * W) :=
  match n with
  | 0 => Ok (m, w)
  | S n' =>
      e ← vector_index (entities m) i;
      if negb (get_bool e)
      then forMatchingSignature_loop n' (S i) signatureBitset Types function m w
      else if (N.land signatureBitset (get_Bitset e) =? signatureBitset)%N
      then
        r ← ForMatchingSignatureHelper_call Types i function m w;
        forMatchingSignature_loop n' (S i) signatureBitset Types function r.1 r.2
      else forMatchingSignature_loop n' (S i) signatureBitset Types function m w
  end.

Definition forMatchingSignature (s : Signature) (function : Function)
    (m : Manager) (w : W) : result (Manager * W) :=
  let SignatureComponents := MatchingComponents s in
  let signatureBitset := generateBitset s in
  forMatchingSignature_loop (currentSize m) 0 signatureBitset SignatureComponents function m w.

(** *** stored functions *)

Definition addForMatchingFunction (s : Signature) (function : Function) (m : Manager)
  : Manager :=
  let helper := MatchingComponents s in
  let signatureBitset := generateBitset s in
  {| entities := entities m; componentsStorage := componentsStorage m;
     currentCapacity := currentCapacity m; currentSize := currentSize m;
     forMatchingFunctions := forMatchingFunctions m ++
       [ {| cl_function := function; cl_signatureBitset := signatureBitset;
            cl_helper := helper |} ] |}.

(** The body of the stored lambda, run on the manager it captured. *)
Fixpoint Closure_loop (n i : nat) (cl : Closure) (m : Manager) (w : W)
  : result (Manager * W) :=
  match n with
  | 0 => Ok (m, w)
  | S n' =>
      e ← vector_index (entities m) i;
      if negb (get_bool e) then Closure_loop n' (S i) cl m w
      else if (N.land (cl_signatureBitset cl) (get_Bitset e) =? cl_signatureBitset cl)%N
      then
        r ← ForMatchingSignatureHelper_callInstance (cl_helper cl) i (cl_function cl) m w;
        Closure_loop n' (S i) cl r.1 r.2
      else Closure_loop n' (S i) cl m w
  end.

Definition Closure_call (cl : Closure) (m : Manager) (w : W) : result (Manager * W) :=
  Closure_loop (currentSize m) 0 cl m w.

(** [for(functionIter = begin(); functionIter != end(); ++functionIter)
      functionIter->operator()();] *)
Fixpoint callForMatchingFunctions_loop (fs : list Closure) (m : Manager) (w : W)
  : result (Manager * W) :=
  match fs with
  | [] => Ok (m, w)
  | f :: fs' => r ← Closure_call f m w; callForMatchingFunctions_loop fs' r.1 r.2
  end.

Definition callForMatchingFunctions (m : Manager) (w : W) : result (Manager * W) :=
  callForMatchingFunctions_loop (forMatchingFunctions m) m w.

Definition clearForMatchingFunctions (m : Manager) : Manager :=
  {| entities := entities m; componentsStorage := componentsStorage m;
     currentCapacity := currentCapacity m; currentSize := currentSize m;
     forMatchingFunctions := [] |}.

(** ** The table invariant *)

(** Data slots of the records of a table of capacity [cap]: in range and
    pairwise distinct. *)
Record slots_ok (cap : nat) (es : EntitiesType) : Prop := {
  slots_length : length es = cap;
  slots_range : ∀ i e, es !! i = Some e → get_size_t e < cap;
  slots_inj : ∀ i j ei ej, es !! i = Some ei → es !! j = Some ej →
                get_size_t ei = get_size_t ej → i = j
}.

(** No record at or above [n] is alive. *)
Definition dead_from (n : nat) (es : EntitiesType) : Prop :=
  ∀ i e, es !! i = Some e → n ≤ i → get_bool e = false.

(** The alive records of a table, in table order. *)
Definition alive_records (es : EntitiesType) : list EntitiesTupleType :=
  filter (λ e, get_bool e = true) es.

Record wf (m : Manager) : Prop := {
  wf_slots : slots_ok (currentCapacity m) (entities m);
  wf_storage : ∀ c, length (componentsStorage m c) = currentCapacity m;
  wf_size : currentSize m ≤ currentCapacity m;
  wf_dead : dead_from (currentSize m) (entities m)
}.

(** What a handler cannot change: the entity table, the sizes, the stored
    functions and the length of every component vector. *)
Record same_table (m m' : Manager) : Prop := {
  same_entities : entities m' = entities m;
  same_capacity : currentCapacity m' = currentCapacity m;
  same_size : currentSize m' = currentSize m;
  same_functions : forMatchingFunctions m' = forMatchingFunctions m;
  same_shape : ∀ c, length (componentsStorage m' c) = length (componentsStorage m c)
}.

(** States reached from [Manager()] through the public interface. *)
Inductive reachable : Manager → Prop :=
  | reach_new m : Manager_new = Ok m → reachable m
  | reach_addEntity m id m' :
      reachable m → addEntity m = Ok (id, m') → reachable m'
  | reach_deleteEntity m index m' :
      reachable m → deleteEntity index m = Ok m' → reachable m'
  | reach_cleanup m m' :
      reachable m → cleanup m = Ok m' → reachable m'
  | reach_addComponent m c id args m' :
      reachable m → addComponent c id args m = Ok m' → reachable m'
  | reach_removeComponent m c id m' :
      reachable m → removeComponent c id m = Ok m' → reachable m'
  | reach_addTag m t id m' :
      reachable m → addTag t id m = Ok m' → reachable m'
  | reach_removeTag m t id m' :
      reachable m → removeTag t id m = Ok m' → reachable m'
  | reach_forMatchingSignature m s f w m' w' :
      reachable m → forMatchingSignature s f m w = Ok (m', w') → reachable m'
  | reach_addForMatchingFunction m s f :
      reachable m → reachable (addForMatchingFunction s f m)
  | reach_callForMatchingFunctions m w m' w' :
      reachable m → callForMatchingFunctions m w = Ok (m', w') → reachable m'
  | reach_clearForMatchingFunctions m :
      reachable m → reachable (clearForMatchingFunctions m).

(** One call of the public interface other than [cleanup]. *)
Inductive mutation : Manager → Manager → Prop :=
  | mut_addEntity m id m' : addEntity m = Ok (id, m') → mutation m m'
  | mut_deleteEntity m index m' : deleteEntity index m = Ok m' → mutation m m'
  | mut_addComponent m c id args m' :
      addComponent c id args m = Ok m' → mutation m m'
  | mut_removeComponent m c id m' : removeComponent c id m = Ok m' → mutation m m'
  | mut_addTag m t id m' : addTag t id m = Ok m' → mutation m m'
  | mut_removeTag m t id m' : removeTag t id m = Ok m' → mutation m m'
  | mut_forMatchingSignature m s f w m' w' :
      forMatchingSignature s f m w = Ok (m', w') → mutation m m'
  | mut_addForMatchingFunction m s f : mutation m (addForMatchingFunction s f m)
  | mut_callForMatchingFunctions m w m' w' :
      callForMatchingFunctions m w = Ok (m', w') → mutation m m'
  | mut_clearForMatchingFunctions m : mutation m (clearForMatchingFunctions m).

(** States reached from [Manager()] without ever calling [cleanup]. *)
Definition reachable_without_cleanup (m : Manager) : Prop :=
  ∃ m0, Manager_new = Ok m0 ∧ rtc mutation m0 m.

(** Every record is where it was created and no slot at or above
    currentSize has a membership bit. *)
Definition untouched_slots (m : Manager) : Prop :=
  ∀ i e, entities m !! i = Some e →
         get_size_t e = i ∧ (currentSize m ≤ i → get_Bitset e = 0%N).

(** Every record below [n] is alive. *)
Definition alive_below (n : nat) (es : EntitiesType) : Prop :=
  ∀ i e, i < n → es !! i = Some e → get_bool e = true.

(** No record at or above [n] has a membership bit. *)
Definition empty_from (n : nat) (es : EntitiesType) : Prop :=
  ∀ i e, es !! i = Some e → n ≤ i → get_Bitset e = 0%N.

(** ** What [forMatchingSignature] has to do, in the words of the spec *)

(** An alive record whose membership, ANDed with the target, is the target. *)
Definition spec_matches (target : BitsetType) (e : EntitiesTupleType) : bool :=
  get_bool e && (N.land target (get_Bitset e) =? target)%N.

(** The identifiers [0..currentSize) of matching entities, increasing. *)
Definition spec_selected (target : BitsetType) (es : EntitiesType) (i : nat) : bool :=
  match es !! i with
  | Some e => spec_matches target e
  | None => false
  end.
Definition spec_matching_ids (target : BitsetType) (es : EntitiesType) (size : nat)
  : list nat :=
  filter (λ i, spec_selected target es i = true) (seq 0 size).

(** The references handed over for entity [i]: one per component of the
    signature, in its order, at the entity's data slot. *)
Definition spec_refs (Types : list Component) (es : EntitiesType) (i : nat) : list Ref :=
  match es !! i with
  | Some e => (λ c, (c, get_size_t e)) <$> Types
  | None => []
  end.

Definition spec_calls (s : Signature) (m : Manager) : list (nat * list Ref) :=
  (λ i, (i, spec_refs (MatchingComponents s) (entities m) i))
    <$> spec_matching_ids (generateBitset s) (entities m) (currentSize m).

(** Running a handler over a list of calls. *)
Definition run_calls (function : Function) (calls : list (nat * list Ref))
    (m : Manager) (w : W) : Manager * W :=
  foldl (λ st call, invoke function call.1 call.2 st.1 st.2) (m, w) calls.

(** What [invokeAll] has to do: the direct scans, in registration order. *)
Fixpoint spec_invokeAll (regs : list (Signature * Function)) (m : Manager) (w : W)
  : result (Manager * W) :=
  match regs with
  | [] => Ok (m, w)
  | r :: regs' =>
      x ← forMatchingSignature r.1 r.2 m w; spec_invokeAll regs' x.1 x.2
  end.

Definition register_all (regs : list (Signature * Function)) (m : Manager) : Manager :=
  foldl (λ m r, addForMatchingFunction r.1 r.2 m) m regs.

(** The closure [addForMatchingFunction] stores for a registration. *)
Definition closure_of (r : Signature * Function) : Closure :=
  {| cl_function := r.2; cl_signatureBitset := generateBitset r.1;
     cl_helper := MatchingComponents r.1 |}.

(** The calls a stored closure has to make on a table: one per alive entity
    below currentSize whose membership contains the stored bitset, in
    increasing order, with the references of the stored helper. *)
Definition closure_calls (cl : Closure) (m : Manager) : list (nat * list Ref) :=
  (λ i, (i, spec_refs (cl_helper cl) (entities m) i))
    <$> spec_matching_ids (cl_signatureBitset cl) (entities m) (currentSize m).


End Manager.

(** ** The schema of src/test/MetaTest.cpp *)

Inductive TestComponent : Type := C0 | C1 | C2 | C3.
Inductive TestTag : Type := T0 | T1.

#[global] Instance TestComponent_eq_dec : EqDecision TestComponent.
Proof. solve_decision. Defined.
#[global] Instance TestTag_eq_dec : EqDecision TestTag.
Proof. solve_decision. Defined.

#[global, refine] Instance TestComponent_finite : Finite TestComponent :=
  {| enum := [C0; C1; C2; C3] |}.
Proof.
  - compute_done.
  - intros []; compute_done.
Defined.

#[global, refine] Instance TestTag_finite : Finite TestTag :=
  {| enum := [T0; T1] |}.
Proof.
  - compute_done.
  - intros []; compute_done.
Defined.

(** Values are numbers, a component is constructed from a number, and the
    handlers below log their invocations. *)
Definition TestManager : Type := @Manager TestComponent nat (list (nat * list (@Ref TestComponent))).
Definition test_construct (c : TestComponent) (a : nat) : nat := a.
Definition test_default (c : TestComponent) : nat := 0.
Definition test_new : result TestManager := Manager_new test_default.
Definition test_addEntity (m : TestManager) : result TestManager :=
  r ← addEntity test_default m; Ok r.2.

(** The manager a successful call returns. *)
Definition run (r : result TestManager) : TestManager :=
  match r with
  | Ok m => m
  | Fail _ => Manager_fields
  end.

(** [Manager<...> manager;] *)
Definition fresh : TestManager := run test_new.
(** ... followed by one and by three calls of [addEntity()]. *)
Definition one : TestManager := run (test_addEntity fresh).
Definition three : TestManager :=
  run (test_addEntity (run (test_addEntity one))).
(** Entity 0 of [one] deleted. *)
Definition one_dead : TestManager := run (deleteEntity 0 one).
(** Entities 0 and 1 of [three] deleted: dead, dead, alive. *)
Definition two_dead : TestManager := run (deleteEntity 1 (run (deleteEntity 0 three))).
Definition two_dead_cleaned : TestManager := run (cleanup two_dead).
(** Entity 0 of [three] deleted, then [cleanup()]. *)
Definition compacted : TestManager := run (cleanup (run (deleteEntity 0 three))).
(** Entities 0 and 2 of [three] own a [C0], entity 2 is tagged [T0], and
    entity 1 is deleted. *)
Definition with_component : TestManager := run (addComponent test_construct C0 0 5 three).
Definition with_components : TestManager :=
  run (addComponent test_construct C0 2 7 with_component).
Definition tagged : TestManager := run (addTag T0 2 with_components).
Definition populated : TestManager := run (deleteEntity 1 tagged).

(** The [C0] of entity 0 of [with_component] removed again. *)
Definition component_removed : TestManager := run (removeComponent C0 0 with_component).

(** Signatures: a component, a component and a tag, a tag alone, nothing. *)
Definition sig_C0 : @Signature TestComponent TestTag := [inl C0].
Definition sig_C0_T0 : @Signature TestComponent TestTag := [inl C0; inr T0].
Definition sig_T0 : @Signature TestComponent TestTag := [inr T0].
Definition sig_empty : @Signature TestComponent TestTag := [].

(** Two entities, entity 0 owning a [C1]; both deleted; [cleanup()]. *)
Definition all_dead_cleaned : TestManager :=
  run (cleanup (run (deleteEntity 1 (run (deleteEntity 0
    (run (addComponent test_construct C1 0 7 (run (test_addEntity one))))))))).

(** A handler that logs its invocations, and one that increments the
    components it is handed. *)
Definition log_handler : @Function TestComponent nat (list (nat * list (@Ref TestComponent))) :=
  λ entityID refs st w, ([], w ++ [(entityID, refs)]).
Definition bump_handler : @Function TestComponent nat (list (nat * list (@Ref TestComponent))) :=
  λ entityID refs st w, ((λ r, (r, S (default 0 (load st r)))) <$> refs, w).

(** [populated] with two stored functions: the first increments every [C0],
    the second logs the entities owning a [C0] and tagged [T0]. *)
Definition registered : TestManager :=
  addForMatchingFunction sig_C0_T0 log_handler
    (addForMatchingFunction sig_C0 bump_handler populated).

(** ** Facts about the error monad and vectors *)

Lemma bind_Ok_inv {A B} (r : result A) (k : A → result B) (b : B) :
  r ≫= k = Ok b → ∃ a, r = Ok a ∧ k a = Ok b.
Proof. destruct r as [a|f]; simpl; [eauto | discriminate]. Qed.

Lemma vector_at_Ok {A} (v : list A) (i : nat) (x : A) :
  vector_at v i = Ok x ↔ v !! i = Some x.
Proof. unfold vector_at. destruct (v !! i); split; congruence. Qed.

Lemma vector_at_Fail {A} (v : list A) (i : nat) :
  vector_at v i = Fail OutOfRange ↔ length v ≤ i.
Proof.
  unfold vector_at. rewrite <- lookup_ge_None.
  destruct (v !! i); split; congruence.
Qed.

Lemma vector_index_Ok {A} (v : list A) (i : nat) (x : A) :
  vector_index v i = Ok x ↔ v !! i = Some x.
Proof. unfold vector_index. destruct (v !! i); split; congruence. Qed.

Lemma vector_assign_Ok {A} (v v' : list A) (i : nat) (x : A) :
  vector_assign v i x = Ok v' ↔ i < length v ∧ v' = <[i := x]> v.
Proof.
  unfold vector_assign. case_decide; split; try intros [? ?]; try congruence;
    try lia; intuition congruence.
Qed.

Lemma vector_assign_lt {A} (v : list A) (i : nat) (x : A) :
  i < length v → vector_assign v i x = Ok (<[i := x]> v).
Proof. intros. unfold vector_assign. by rewrite decide_True. Qed.

Lemma vector_resize_length {A} (v : list A) (n : nat) (d : A) :
  length (vector_resize v n d) = n.
Proof.
  unfold vector_resize. rewrite length_app, length_take, length_replicate. lia.
Qed.

Lemma vector_resize_grow {A} (v : list A) (n : nat) (d : A) :
  length v ≤ n → vector_resize v n d = v ++ replicate (n - length v) d.
Proof. intros. unfold vector_resize. by rewrite take_ge. Qed.

(** Unfolding a successful monadic computation, hypothesis by hypothesis. *)
Tactic Notation "ok_inv" hyp(H) "as" simple_intropattern(a) simple_intropattern(Ha) :=
  apply bind_Ok_inv in H as (a & Ha & H).

(** ** Facts about bitsets *)

Lemma Bitset_test_set_eq (b : BitsetType) (pos : nat) (v : bool) :
  Bitset_test (Bitset_set b pos v) pos = v.
Proof.
  unfold Bitset_test, Bitset_set. destruct v.
  - apply N.setbit_eq.
  - apply N.clearbit_eq.
Qed.

Lemma Bitset_test_set_ne (b : BitsetType) (pos pos' : nat) (v : bool) :
  pos ≠ pos' → Bitset_test (Bitset_set b pos v) pos' = Bitset_test b pos'.
Proof.
  intros Hne. unfold Bitset_test, Bitset_set.
  assert (N.of_nat pos ≠ N.of_nat pos') by lia.
  destruct v.
  - by apply N.setbit_neq.
  - by apply N.clearbit_neq.
Qed.

Lemma IndexOf_lt {A} `{EqDecision A} (x : A) (l : list A) :
  x ∈ l → IndexOf x l < length l.
Proof.
  induction l as [|y l IH]; simpl.
  - by intros ?%elem_of_nil.
  - intros Hx. case_decide; [lia|].
    apply elem_of_cons in Hx as [?|?]; [done|]. specialize (IH ltac:(done)). lia.
Qed.

Lemma IndexOf_lookup {A} `{EqDecision A} (x : A) (l : list A) :
  x ∈ l → l !! IndexOf x l = Some x.
Proof.
  induction l as [|y l IH]; simpl.
  - by intros ?%elem_of_nil.
  - intros Hx. case_decide; [by subst|].
    apply elem_of_cons in Hx as [?|?]; [done|]. by apply IH.
Qed.

Lemma IndexOf_inj {A} `{EqDecision A} (x y : A) (l : list A) :
  x ∈ l → y ∈ l → IndexOf x l = IndexOf y l → x = y.
Proof.
  intros Hx Hy Heq. apply IndexOf_lookup in Hx, Hy.
  rewrite Heq in Hx. congruence.
Qed.

(** ** Facts about entity records *)

Lemma set_bool_same (e : EntitiesTupleType) : set_bool (get_bool e) e = e.
Proof. by destruct e as [[? ?] ?]. Qed.

Lemma get_Bitset_set_Bitset (b : BitsetType) (e : EntitiesTupleType) :
  get_Bitset (set_Bitset b e) = b.
Proof. done. Qed.

Lemma slots_ok_update (cap : nat) (es : EntitiesType) (i : nat) (e e' : EntitiesTupleType) :
  es !! i = Some e → get_size_t e' = get_size_t e →
  slots_ok cap es → slots_ok cap (<[i := e']> es).
Proof.
  intros Hi Hslot [Hlen Hrange Hinj]. split.
  - by rewrite length_insert.
  - intros j ej [[-> [-> _]]|[_ Hj]]%list_lookup_insert_Some; [|by eauto].
    rewrite Hslot. eauto.
  - intros j k ej ek Hj Hk Heq.
    apply list_lookup_insert_Some in Hj as [[-> [-> _]]|[? Hj]];
      apply list_lookup_insert_Some in Hk as [[-> [-> _]]|[? Hk]]; try done.
    + rewrite Hslot in Heq. eauto.
    + rewrite Hslot in Heq. eauto.
    + eauto.
Qed.

Lemma slots_ok_swap (cap : nat) (es : EntitiesType) (i j : nat) (ei ej : EntitiesTupleType) :
  es !! i = Some ei → es !! j = Some ej →
  slots_ok cap es → slots_ok cap (<[j := ei]> (<[i := ej]> es)).
Proof.
  intros Hi Hj [Hlen Hrange Hinj]. split.
  - by rewrite !length_insert.
  - intros k ek Hk.
    apply list_lookup_insert_Some in Hk as [[-> [-> _]]|[? Hk]]; [by eauto|].
    apply list_lookup_insert_Some in Hk as [[-> [-> _]]|[? Hk]]; by eauto.
  - intros k l ek el Hk Hl Heq.
    destruct (decide (i = j)) as [->|Hij].
    { assert (ei = ej) as -> by congruence.
      rewrite list_insert_insert_eq, list_insert_id in Hk, Hl by done. eauto. }
    assert (∀ k ek, <[j := ei]> (<[i := ej]> es) !! k = Some ek →
              ∃ k', es !! k' = Some ek ∧
                    (k = j ∧ k' = i ∨ k = i ∧ k' = j ∨ k ≠ i ∧ k ≠ j ∧ k' = k)) as Hsw.
    { intros k0 ek0 H0.
      apply list_lookup_insert_Some in H0 as [[-> [-> _]]|[? H0]]; [by eauto 10|].
      apply list_lookup_insert_Some in H0 as [[-> [-> _]]|[? H0]]; by eauto 10. }
    apply Hsw in Hk as (k' & Hk & Hkc). apply Hsw in Hl as (l' & Hl & Hlc).
    assert (k' = l') by eauto. lia.
Qed.

(** ** The invariant holds in every reachable state *)

Section Facts.
Context {Component Tag : Type}.
Context `{FinC : Finite Component} `{FinT : Finite Tag}.
Context {Val Args W : Type}.
Context (construct : Component → Args → Val) (default_value : Component → Val).

Local Abbreviation Mgr := (@Manager Component Val W).
Local Abbreviation Sig := (@Signature Component Tag).
Local Abbreviation Fn := (@Function Component Val W).
Local Abbreviation Reachable := (reachable (Tag:=Tag) construct default_value).
Implicit Types (m : Mgr) (es : list EntitiesTupleType).
Local Abbreviation tagPosOf := (tagPos (Component := Component) (Tag := Tag)).
Local Abbreviation getTagBitOf := (getTagBit (Component := Component) (Tag := Tag)).
Implicit Types (c : Component) (t : Tag).
Implicit Types (s : Sig) (function : Fn) (r : Sig * Fn) (regs : list (Sig * Fn)).

Lemma with_entities_same m : with_entities (entities m) m = m.
Proof. by destruct m. Qed.

Lemma resize_loop_spec n i es :
  length es = i + n →
  resize_loop n i es = Ok (take i es ++ ((λ j, (false, j, 0%N)) <$> seq i n)).
Proof.
  revert i es. induction n as [|n IH]; intros i es Hlen; simpl.
  - rewrite app_nil_r, take_ge by lia. done.
  - rewrite vector_assign_lt by lia. simpl.
    rewrite IH by (rewrite length_insert; lia).
    rewrite (take_S_r _ _ (false, i, 0%N))
      by (apply list_lookup_insert_eq; lia).
    rewrite take_insert_ge by lia. by rewrite <- app_assoc.
Qed.

Lemma resize_storage_length (n : nat) (l : list Component) (st : Component → list Val) c :
  c ∈ l ∨ length (st c) = n →
  length (foldl (λ st ty, <[ty := vector_resize (st ty) n (default_value ty)]> st) st l c) = n.
Proof.
  revert st. induction l as [|t l IH]; intros st Hc; simpl.
  - destruct Hc as [?%elem_of_nil|?]; done.
  - apply IH. destruct (decide (t = c)) as [->|Hne].
    + right. rewrite fn_lookup_insert. apply vector_resize_length.
    + rewrite fn_lookup_insert_ne by done.
      destruct Hc as [[?|?]%elem_of_cons|?]; auto. congruence.
Qed.

Lemma slots_ok_grow cap n es :
  cap ≤ n → slots_ok cap es →
  slots_ok n (es ++ ((λ j, (false, j, 0%N)) <$> seq cap (n - cap))).
Proof.
  intros Hle [Hlen Hrange Hinj].
  assert (∀ i e, (es ++ ((λ j, (false, j, 0%N)) <$> seq cap (n - cap))) !! i = Some e →
            es !! i = Some e ∧ i < cap ∨ (cap ≤ i ∧ i < n ∧ e = (false, i, 0%N))) as Hlk.
  { intros i e [Hi|[Hge Hi]]%lookup_app_Some.
    - left. split; [done|]. apply lookup_lt_Some in Hi. lia.
    - right. apply list_lookup_fmap_Some in Hi as (j & -> & Hj).
      apply lookup_seq in Hj as [-> ?].
      replace (cap + (i - length es)) with i by lia. split_and!; (lia || done). }
  split.
  - rewrite length_app, length_fmap, length_seq. lia.
  - intros i e [[Hi ?]|(? & ? & ->)]%Hlk; [|done].
    apply Hrange in Hi. lia.
  - intros i j ei ej Hi Hj Heq.
    apply Hlk in Hi as [[Hi ?]|(? & ? & ->)];
      apply Hlk in Hj as [[Hj ?]|(? & ? & ->)].
    + eauto.
    + apply Hrange in Hi. unfold get_size_t in *. simpl in *. lia.
    + apply Hrange in Hj. unfold get_size_t in *. simpl in *. lia.
    + done.
Qed.

Lemma resize_spec n m :
  wf m →
  ∃ m', resize default_value n m = Ok m' ∧ wf m' ∧
        currentSize m' = currentSize m ∧
        currentCapacity m' = currentCapacity m `max` n ∧
        forMatchingFunctions m' = forMatchingFunctions m ∧
        (∀ i, i < currentCapacity m → entities m' !! i = entities m !! i) ∧
        (∀ i, currentCapacity m ≤ i < currentCapacity m' →
              entities m' !! i = Some (false, i, 0%N)).
Proof.
  intros Hwf. pose proof Hwf as [Hslots Hst Hsz Hdead].
  pose proof (slots_length _ _ Hslots) as Hlen. unfold resize.
  case_decide as Hcap.
  - exists m. split_and!; try done; intros; lia.
  - rewrite resize_loop_spec by (rewrite vector_resize_length; lia). simpl.
    rewrite vector_resize_grow, take_app_length' by lia.
    eexists. split; [done|]. simpl.
    split_and!; simpl; try done; try lia.
    + split; simpl.
      * apply slots_ok_grow; [lia|done].
      * intros c. apply resize_storage_length. left. apply elem_of_enum.
      * lia.
      * intros i e [Hi|[Hge Hi]]%lookup_app_Some Hle; [by eauto|].
        by apply list_lookup_fmap_Some in Hi as (j & -> & Hj).
    + intros i Hi. apply lookup_app_l. lia.
    + intros i Hi. rewrite lookup_app_r by lia.
      rewrite list_lookup_fmap, lookup_seq_lt by lia. simpl.
      by replace (currentCapacity m + (i - length (entities m))) with i by lia.
Qed.

Lemma Manager_fields_wf : wf (Manager_fields : Mgr).
Proof.
  split; simpl; try done.
Qed.

Lemma Manager_new_wf m : Manager_new default_value = Ok m → wf m.
Proof.
  unfold Manager_new. intros Hnew.
  destruct (resize_spec EC_INIT_ENTITIES_SIZE _ Manager_fields_wf)
    as (m' & Hres & Hwf & _).
  congruence.
Qed.

Lemma EC_GROW_SIZE_AMOUNT_pos : 0 < EC_GROW_SIZE_AMOUNT.
Proof. unfold EC_GROW_SIZE_AMOUNT. lia. Qed.

(** [addEntity] on a well-formed table: the slot at [currentSize] (a fresh
    one after growth) is revived as it is. *)
Lemma addEntity_spec m :
  wf m →
  ∃ m' e, addEntity default_value m = Ok (currentSize m, m') ∧ wf m' ∧
          currentSize m' = S (currentSize m) ∧
          entities m' !! currentSize m = Some (set_bool true e) ∧
          (if decide (currentSize m = currentCapacity m)
           then e = (false, currentSize m, 0%N)
           else entities m !! currentSize m = Some e) ∧
          (∀ i, i < currentSize m → entities m' !! i = entities m !! i).
Proof.
  intros Hwf. unfold addEntity.
  assert (∃ m1, (if decide (currentSize m = currentCapacity m)
                 then resize default_value (currentCapacity m + EC_GROW_SIZE_AMOUNT) m
                 else Ok m) = Ok m1 ∧ wf m1 ∧ currentSize m1 = currentSize m ∧
                currentSize m < currentCapacity m1 ∧
                (∀ i, i < currentSize m → entities m1 !! i = entities m !! i) ∧
                ∃ e, entities m1 !! currentSize m = Some e ∧
                     if decide (currentSize m = currentCapacity m)
                     then e = (false, currentSize m, 0%N)
                     else entities m !! currentSize m = Some e)
    as (m1 & -> & Hwf1 & Hsz1 & Hlt & Hold & e & He & Hslot).
  { pose proof EC_GROW_SIZE_AMOUNT_pos. pose proof (wf_size _ Hwf).
    case_decide as Hfull.
    - destruct (resize_spec (currentCapacity m + EC_GROW_SIZE_AMOUNT) m Hwf)
        as (m1 & Hres & Hwf1 & Hsz1 & Hcap1 & _ & Hold & Hnew).
      exists m1. split_and!; try done; try lia.
      + intros i Hi. apply Hold. lia.
      + eexists. split; [apply Hnew; lia|done].
    - exists m. split_and!; try done; try lia.
      destruct (lookup_lt_is_Some_2 (entities m) (currentSize m)) as [e He].
      { rewrite (slots_length _ _ (wf_slots _ Hwf)). lia. }
      eauto. }
  simpl. rewrite Hsz1.
  assert (currentSize m < length (entities m1)) as Hlen.
  { by apply lookup_lt_Some in He. }
  rewrite (proj2 (vector_index_Ok _ _ e)) by done. simpl.
  rewrite vector_assign_lt by done. simpl.
  eexists _, e. split; [done|].
  destruct Hwf1 as [Hslots1 Hst1 Hsize1 Hdead1].
  split_and!; simpl; try done.
  - split; simpl; try done; try lia.
    + apply (slots_ok_update _ _ _ e); [done|reflexivity|done].
    + intros i ei [[<- [<- _]]|[? Hi]]%list_lookup_insert_Some Hle; [lia|].
      eapply Hdead1; [done|lia].
  - by apply list_lookup_insert_eq.
  - intros i Hi. rewrite list_lookup_insert_ne by lia. by apply Hold.
Qed.

Lemma deleteEntity_wf index m m' :
  wf m → deleteEntity index m = Ok m' → wf m'.
Proof.
  intros [Hslots Hst Hsz Hdead] Hdel. unfold deleteEntity in Hdel.
  ok_inv Hdel as a Ha. apply vector_at_Ok in Ha. injection Hdel as <-.
  split; simpl; try done.
  - apply (slots_ok_update _ _ _ a); [done|reflexivity|done].
  - intros i ei [[<- [<- _]]|[? Hi]]%list_lookup_insert_Some Hle; [done|].
    by eapply Hdead.
Qed.

Lemma assignBit_wf entityID pos value m m' :
  wf m → assignBit entityID pos value m = Ok m' →
  wf m' ∧ componentsStorage m' = componentsStorage m ∧
  currentSize m' = currentSize m ∧ currentCapacity m' = currentCapacity m.
Proof.
  intros [Hslots Hst Hsz Hdead] Hset. unfold assignBit in Hset.
  ok_inv Hset as a Ha. apply vector_index_Ok in Ha. ok_inv Hset as es' Hes'.
  apply vector_assign_Ok in Hes' as [Hlt ->]. injection Hset as <-.
  split_and!; try done. split; simpl; try done.
  - apply (slots_ok_update _ _ _ a); [done|reflexivity|done].
  - intros i ei [[<- [<- _]]|[? Hi]]%list_lookup_insert_Some Hle; [|by eapply Hdead].
    by apply (Hdead entityID a).
Qed.

Lemma guarded_assignBit_wf entityID pos value m m' :
  wf m →
  (inv ← invalidEntity entityID m;
   if (inv : bool) then Ok m else assignBit entityID pos value m) = Ok m' →
  wf m'.
Proof.
  intros Hwf Hop. ok_inv Hop as inv Hinv. destruct inv.
  - by injection Hop as <-.
  - by eapply assignBit_wf.
Qed.

Lemma addComponent_wf c entityID args m m' :
  wf m → addComponent construct c entityID args m = Ok m' → wf m'.
Proof.
  intros Hwf Hop. unfold addComponent in Hop. ok_inv Hop as inv Hinv. destruct inv.
  { by injection Hop as <-. }
  ok_inv Hop as m1 Hm1. apply assignBit_wf in Hm1 as ([Hslots Hst Hsz Hdead] & _); [|done].
  ok_inv Hop as e He. ok_inv Hop as v Hv. apply vector_assign_Ok in Hv as [Hlt ->].
  injection Hop as <-. split; simpl; try done.
  intros c'. destruct (decide (c = c')) as [->|Hne].
  - by rewrite fn_lookup_insert, length_insert.
  - by rewrite fn_lookup_insert_ne.
Qed.

(** *** cleanup *)

Lemma cleanup_inner_eq es rhs :
  cleanup_inner es rhs =
    (e ← vector_index es rhs;
     if get_bool e then Ok (Continue es rhs)
     else match rhs with
          | 0 => Ok (Returned es)
          | S rhs' =>
              es' ← vector_assign es rhs (set_Bitset (Bitset_reset (get_Bitset e)) e);
              cleanup_inner es' rhs'
          end).
Proof. by destruct rhs. Qed.

Lemma dead_from_update n es i e e' :
  es !! i = Some e → get_bool e' = get_bool e →
  dead_from n es → dead_from n (<[i := e']> es).
Proof.
  intros Hi Hb Hdead j ej [[<- [<- _]]|[? Hj]]%list_lookup_insert_Some Hle.
  - rewrite Hb. by eapply Hdead.
  - by eapply Hdead.
Qed.

Lemma dead_from_S n es e :
  es !! n = Some e → get_bool e = false → dead_from (S n) es → dead_from n es.
Proof.
  intros Hn Hb Hdead i ei Hi Hle.
  destruct (decide (i = n)) as [->|?]; [congruence|].
  eapply Hdead; [done|lia].
Qed.

(** The inner loop stops, either on an alive record at or below [rhs], or
    at index 0 with every record dead. *)
Lemma cleanup_inner_spec cap es rhs :
  slots_ok cap es → rhs < cap → dead_from (S rhs) es →
  ∃ out, cleanup_inner es rhs = Ok out ∧
    match out with
    | Returned es' => slots_ok cap es' ∧ dead_from 0 es'
    | Continue es' rhs' =>
        slots_ok cap es' ∧ rhs' ≤ rhs ∧ dead_from (S rhs') es' ∧
        ∃ e, es' !! rhs' = Some e ∧ get_bool e = true
    end.
Proof.
  revert es. induction rhs as [|rhs IH]; intros es Hslots Hlt Hdead;
    rewrite cleanup_inner_eq;
    (destruct (lookup_lt_is_Some_2 es _ ltac:(rewrite (slots_length _ _ Hslots); exact Hlt))
      as [e He]);
    rewrite (proj2 (vector_index_Ok _ _ e)) by done; simpl;
    destruct (get_bool e) eqn:Halive.
  - eexists. split; [done|]. simpl. eauto 10.
  - eexists. split; [done|]. split; [done|]. by eapply dead_from_S.
  - eexists. split; [done|]. simpl. eauto 10.
  - rewrite vector_assign_lt by (rewrite (slots_length _ _ Hslots); exact Hlt). simpl.
    destruct (IH (<[S rhs := set_Bitset (Bitset_reset (get_Bitset e)) e]> es))
      as (out & -> & Hout).
    + by apply (slots_ok_update _ _ _ e).
    + lia.
    + apply (dead_from_S _ _ (set_Bitset (Bitset_reset (get_Bitset e)) e)).
      * apply list_lookup_insert_eq. rewrite (slots_length _ _ Hslots). lia.
      * done.
      * by apply (dead_from_update _ _ _ e).
    + exists out. split; [done|]. destruct out as [es'|es' rhs']; [done|].
      destruct Hout as (? & ? & ? & ?). split_and!; try done. lia.
Qed.

(** The outer loop returns, given at least [rhs - lhs] units of fuel. *)
Lemma cleanup_outer_spec cap fuel es lhs rhs :
  slots_ok cap es → rhs < cap → dead_from (S rhs) es → rhs - lhs ≤ fuel →
  ∃ es' n, cleanup_outer fuel es lhs rhs = Ok (es', n) ∧
           slots_ok cap es' ∧ n ≤ S rhs ∧ dead_from n es'.
Proof.
  revert es lhs rhs. induction fuel as [|fuel IH];
    intros es lhs rhs Hslots Hlt Hdead Hfuel; simpl.
  - rewrite decide_False by lia. exists es, (rhs + 1).
    rewrite Nat.add_1_r. split_and!; try done.
  - case_decide as Hlr; cycle 1.
    { exists es, (rhs + 1). rewrite Nat.add_1_r. split_and!; try done. }
    destruct (cleanup_inner_spec cap es rhs) as (out & -> & Hout); try done.
    simpl. destruct out as [es1|es1 rhs1].
    { destruct Hout. exists es1, 0. split_and!; try done. lia. }
    destruct Hout as (Hslots1 & Hle1 & Hdead1 & er & Her & Halive).
    pose proof (slots_length _ _ Hslots1) as Hlen1.
    case_decide as Hmeet.
    { exists es1, (rhs1 + 1). rewrite Nat.add_1_r. split_and!; try done. lia. }
    destruct (lookup_lt_is_Some_2 es1 lhs ltac:(lia)) as [el Hel].
    rewrite (proj2 (vector_index_Ok _ _ el)) by done. simpl.
    destruct (get_bool el) eqn:Hdeadl; simpl.
    + destruct (IH es1 (lhs + 1) rhs1) as (es' & n & -> & ? & ? & ?);
        try done; try lia.
      exists es', n. split_and!; try done. lia.
    + rewrite (proj2 (vector_at_Ok _ _ er)) by done. simpl.
      assert (<[rhs1 := el]> (<[lhs := er]> es1) !! rhs1 = Some el) as Hsw.
      { apply list_lookup_insert_eq. rewrite length_insert. lia. }
      rewrite (proj2 (vector_index_Ok _ _ el)) by done. simpl.
      rewrite vector_assign_lt by (rewrite !length_insert; lia). simpl.
      destruct (IH (<[rhs1 := set_Bitset (Bitset_reset (get_Bitset el)) el]>
                      (<[rhs1 := el]> (<[lhs := er]> es1))) (lhs + 1) (rhs1 - 1))
        as (es' & n & -> & ? & ? & ?); try lia.
      * apply (slots_ok_update _ _ _ el); [done|done|].
        by apply slots_ok_swap.
      * replace (S (rhs1 - 1)) with rhs1 by lia.
        apply (dead_from_S _ _ (set_Bitset (Bitset_reset (get_Bitset el)) el)).
        -- apply list_lookup_insert_eq. rewrite !length_insert. lia.
        -- done.
        -- intros i ei Hi Hge.
           rewrite !list_lookup_insert_ne in Hi by lia. by eapply Hdead1.
      * exists es', n. split_and!; try done. lia.
Qed.

Lemma cleanup_spec m :
  wf m →
  ∃ m', cleanup m = Ok m' ∧ wf m' ∧ currentSize m' ≤ currentSize m ∧
        currentCapacity m' = currentCapacity m ∧
        componentsStorage m' = componentsStorage m.
Proof.
  intros Hwf. pose proof Hwf as [Hslots Hst Hsz Hdead]. unfold cleanup.
  case_decide as Hempty.
  { exists m. split_and!; try done. }
  destruct (cleanup_outer_spec (currentCapacity m) (currentSize m) (entities m)
              0 (currentSize m - 1)) as (es' & n & -> & ? & ? & ?);
    try done; try lia.
  { by replace (S (currentSize m - 1)) with (currentSize m) by lia. }
  simpl. eexists. split; [done|]. split_and!; simpl; try done; try lia.
  split; simpl; try done. lia.
Qed.

(** The fuel suffices on every table, well formed or not. *)
Lemma cleanup_inner_fault es rhs f : cleanup_inner es rhs = Fail f → f = Undefined.
Proof.
  revert es. induction rhs as [|rhs IH]; intros es; rewrite cleanup_inner_eq;
    unfold vector_index; destruct (es !! _) as [e|]; simpl; try congruence;
    destruct (get_bool e); try congruence.
  unfold vector_assign. case_decide; simpl; [apply IH|congruence].
Qed.

Lemma cleanup_inner_le es rhs es' rhs' :
  cleanup_inner es rhs = Ok (Continue es' rhs') → rhs' ≤ rhs.
Proof.
  revert es. induction rhs as [|rhs IH]; intros es; rewrite cleanup_inner_eq;
    intros Hin; ok_inv Hin as e He; destruct (get_bool e); try (injection Hin as <- <-; lia);
    try done.
  ok_inv Hin as es1 Hes1. apply IH in Hin. lia.
Qed.

Lemma cleanup_outer_fuel fuel es lhs rhs :
  rhs - lhs ≤ fuel → cleanup_outer fuel es lhs rhs ≠ Fail OutOfFuel.
Proof.
  revert es lhs rhs. induction fuel as [|fuel IH]; intros es lhs rhs Hfuel; simpl.
  { by rewrite decide_False by lia. }
  case_decide as Hlr; [|done].
  destruct (cleanup_inner es rhs) as [[es1|es1 rhs1]|f] eqn:Hin; simpl; [done| |].
  - apply cleanup_inner_le in Hin. case_decide; [done|].
    unfold vector_index, vector_at, vector_assign.
    destruct (es1 !! lhs) as [el|]; simpl; [|done].
    destruct (get_bool el); simpl; [apply IH; lia|].
    destruct (es1 !! rhs1) as [er|]; simpl; [|done].
    destruct (_ !! rhs1) as [e|]; simpl; [|done].
    case_decide; simpl; [|done].
    apply IH. lia.
  - apply cleanup_inner_fault in Hin. by subst f.
Qed.

Lemma cleanup_never_out_of_fuel m : cleanup m ≠ Fail OutOfFuel.
Proof.
  unfold cleanup. case_decide; [done|].
  pose proof (cleanup_outer_fuel (currentSize m) (entities m) 0 (currentSize m - 1)
                ltac:(lia)) as Hfuel.
  by destruct (cleanup_outer _ _ _ _) as [r|[]].
Qed.

(** *** what cleanup does achieve *)

Lemma alive_records_update_dead es i e e' :
  es !! i = Some e → get_bool e = false → get_bool e' = false →
  alive_records (<[i := e']> es) = alive_records es.
Proof.
  intros Hi Hb Hb'. unfold alive_records.
  rewrite insert_take_drop by (by eapply lookup_lt_Some).
  rewrite <- (take_drop_middle es i e) at 3 by done.
  rewrite !filter_app, !filter_cons, !decide_False; congruence.
Qed.

Lemma cleanup_inner_alive_records es rhs out :
  cleanup_inner es rhs = Ok out →
  alive_records (match out with Returned es' | Continue es' _ => es' end)
  = alive_records es.
Proof.
  revert es. induction rhs as [|rhs IH]; intros es; rewrite cleanup_inner_eq;
    intros Hin; ok_inv Hin as e He; apply vector_index_Ok in He;
    destruct (get_bool e) eqn:Hb; try (by injection Hin as <-).
  ok_inv Hin as es1 Hes1. apply vector_assign_Ok in Hes1 as [_ ->].
  rewrite (IH _ Hin). by apply (alive_records_update_dead _ _ e).
Qed.

Lemma cleanup_outer_alive_records fuel es lhs rhs es' n :
  cleanup_outer fuel es lhs rhs = Ok (es', n) →
  alive_records es' ≡ₚ alive_records es.
Proof.
  revert es lhs rhs. induction fuel as [|fuel IH]; intros es lhs rhs; simpl;
    (case_decide; [|by intros [= <- _]]); [done|].
  intros Hout. ok_inv Hout as inner Hin. apply cleanup_inner_alive_records in Hin.
  destruct inner as [es1|es1 rhs1]; [by injection Hout as <- _; rewrite Hin|].
  rewrite <- Hin. case_decide; [by injection Hout as <- _|].
  ok_inv Hout as el Hel. apply vector_index_Ok in Hel.
  destruct (get_bool el) eqn:Hb; simpl in Hout; [by eapply IH|].
  ok_inv Hout as er Her. apply vector_at_Ok in Her.
  ok_inv Hout as e He. apply vector_index_Ok in He.
  ok_inv Hout as es3 Hes3. apply vector_assign_Ok in Hes3 as [_ ->].
  assert (e = el) as ->.
  { apply list_lookup_insert_Some in He as [(_ & ? & _)|[? _]]; done. }
  rewrite (IH _ _ _ Hout).
  rewrite (alive_records_update_dead _ _ el) by done.
  unfold alive_records. by rewrite Permutation_insert_swap.
Qed.

(** *** scans *)

Lemma same_table_refl m : same_table m m.
Proof. by split. Qed.

Lemma same_table_trans m1 m2 m3 :
  same_table m1 m2 → same_table m2 m3 → same_table m1 m3.
Proof. intros [] []. split; intros; etrans; eauto. Qed.

Lemma same_table_wf m m' : same_table m m' → wf m → wf m'.
Proof.
  intros [He Hc Hs Hf Hsh] [Hslots Hst Hsz Hdead].
  split; rewrite ?He, ?Hc, ?Hs; try done.
  intros c. by rewrite Hsh.
Qed.

Lemma apply_writes_length (st : Component → list Val) ws c :
  length (apply_writes st ws c) = length (st c).
Proof.
  unfold apply_writes. revert st. induction ws as [|[r v] ws IH]; intros st; simpl; [done|].
  rewrite IH. unfold store. simpl. destruct (decide (r.1 = c)) as [<-|Hne].
  - by rewrite fn_lookup_insert, length_insert.
  - by rewrite fn_lookup_insert_ne.
Qed.

Lemma invoke_same_table function entityID refs m w :
  same_table m (invoke function entityID refs m w).1.
Proof. split; simpl; try done. intros c. apply apply_writes_length. Qed.

Lemma call_same_table Types entityID function m w m' w' :
  ForMatchingSignatureHelper_call Types entityID function m w = Ok (m', w') →
  same_table m m'.
Proof.
  unfold ForMatchingSignatureHelper_call. intros Hcall.
  ok_inv Hcall as refs Hrefs. injection Hcall as <- <-. apply invoke_same_table.
Qed.

Lemma forMatchingSignature_loop_same_table n i bs Types function m w m' w' :
  forMatchingSignature_loop n i bs Types function m w = Ok (m', w') →
  same_table m m'.
Proof.
  revert i m w. induction n as [|n IH]; intros i m w Hloop; simpl in Hloop.
  { injection Hloop as <- <-. apply same_table_refl. }
  ok_inv Hloop as e He.
  destruct (negb (get_bool e)); [by eapply IH|].
  destruct (N.land bs (get_Bitset e) =? bs)%N; [|by eapply IH].
  ok_inv Hloop as r Hr. destruct r as [m1 w1].
  eapply same_table_trans; [by eapply call_same_table|by eapply IH].
Qed.

Lemma Closure_loop_eq n i cl m w :
  Closure_loop n i cl m w =
  forMatchingSignature_loop n i (cl_signatureBitset cl) (cl_helper cl) (cl_function cl) m w.
Proof.
  revert i m w. induction n as [|n IH]; intros i m w; simpl; [done|].
  destruct (vector_index (entities m) i) as [e|]; simpl; [|done].
  destruct (negb (get_bool e)); [done|].
  destruct (N.land _ _ =? _)%N; [|done].
  unfold ForMatchingSignatureHelper_callInstance.
  destruct (ForMatchingSignatureHelper_call _ _ _ _ _) as [r|]; simpl; done.
Qed.

Lemma Closure_call_closure_of r m w :
  Closure_call (closure_of r) m w = forMatchingSignature r.1 r.2 m w.
Proof. unfold Closure_call. by rewrite Closure_loop_eq. Qed.

Lemma callForMatchingFunctions_loop_same_table fs m w m' w' :
  callForMatchingFunctions_loop fs m w = Ok (m', w') → same_table m m'.
Proof.
  revert m w. induction fs as [|f fs IH]; intros m w Hloop; simpl in Hloop.
  { injection Hloop as <- <-. apply same_table_refl. }
  ok_inv Hloop as r Hr. destruct r as [m1 w1].
  unfold Closure_call in Hr. rewrite Closure_loop_eq in Hr.
  eapply same_table_trans; [by eapply forMatchingSignature_loop_same_table|by eapply IH].
Qed.

(** *** reachable states are well formed *)

Lemma reachable_wf m : Reachable m → wf m.
Proof.
  induction 1 as [m Hnew|m id m' _ IH Hop|m index m' _ IH Hop|m m' _ IH Hop
                 |m c id args m' _ IH Hop|m c id m' _ IH Hop|m t id m' _ IH Hop
                 |m t id m' _ IH Hop|m s f w m' w' _ IH Hop|m s f _ IH
                 |m w m' w' _ IH Hop|m _ IH].
  - by eapply Manager_new_wf.
  - destruct (addEntity_spec m IH) as (m2 & e & Hadd & Hwf & _). congruence.
  - by eapply deleteEntity_wf.
  - destruct (cleanup_spec m IH) as (m2 & Hcl & Hwf & _). congruence.
  - by eapply addComponent_wf.
  - by eapply guarded_assignBit_wf.
  - by eapply guarded_assignBit_wf.
  - by eapply guarded_assignBit_wf.
  - eapply same_table_wf; [|done]. by eapply forMatchingSignature_loop_same_table.
  - by destruct IH.
  - eapply same_table_wf; [|done]. by eapply callForMatchingFunctions_loop_same_table.
  - by destruct IH.
Qed.

(** X1: every entity alive before [cleanup] is alive after it, with its dataSlot
    and membership, at an index below the new currentSize, and the component
    storage is untouched.  (What does not hold is that no dead record stays
    below currentSize.) *)
Lemma cleanup_keeps_alive_records m :
  Reachable m →
  ∃ m', cleanup m = Ok m' ∧
        alive_records (entities m') ≡ₚ alive_records (entities m) ∧
        (∀ i e, entities m' !! i = Some e → get_bool e = true → i < currentSize m') ∧
        currentSize m' ≤ currentSize m ∧
        componentsStorage m' = componentsStorage m.
Proof.
  intros Hwf%reachable_wf. unfold cleanup.
  case_decide as Hempty.
  { exists m. split_and!; try done. intros i e Hi Hb.
    destruct (decide (i < currentSize m)) as [|Hge]; [done|].
    rewrite (wf_dead _ Hwf i e) in Hb; [done|done|lia]. }
  destruct (cleanup_outer_spec (currentCapacity m) (currentSize m) (entities m)
              0 (currentSize m - 1)) as (es' & n & Hout & Hslots & Hle & Hdead);
    try apply Hwf.
  - pose proof (wf_size _ Hwf). lia.
  - replace (S (currentSize m - 1)) with (currentSize m) by lia. apply Hwf.
  - lia.
  - rewrite Hout. simpl. eexists. split; [done|]. simpl. split_and!; try done.
    + by eapply cleanup_outer_alive_records.
    + intros i e Hi Hb. destruct (decide (i < n)) as [|Hge]; [done|].
      rewrite (Hdead i e) in Hb; [done|done|lia].
    + lia.
Qed.

(** [cleanup] returns in every reachable state: no access is out of range
    and the fuel suffices. *)
Lemma cleanup_returns m : Reachable m → is_Ok (cleanup m).
Proof. intros (m' & Hcl & _)%reachable_wf%cleanup_spec. by exists m'. Qed.


(** ** Data slots of live entities *)

(** C4: in every state reachable by createEntity ([addEntity]), markDeleted
    ([deleteEntity]), addComponent, removeComponent, addTag, removeTag and
    compact ([cleanup]) — and by the scans and registrations as well — the
    dataSlot values of all live entities are pairwise distinct and each
    lies within [0, currentCapacity). *)
Theorem live_dataSlots_distinct_in_range m :
  Reachable m →
  (∀ i e, isAlive i m = Ok true → getEntityInfo i m = Ok e →
          get_size_t e < currentCapacity m) ∧
  (∀ i j ei ej, isAlive i m = Ok true → isAlive j m = Ok true →
                getEntityInfo i m = Ok ei → getEntityInfo j m = Ok ej →
                get_size_t ei = get_size_t ej → i = j).
Proof.
  intros [[Hlen Hrange Hinj] _ _ _]%reachable_wf. unfold getEntityInfo. split.
  - intros i e _ Hi%vector_at_Ok. eauto.
  - intros i j ei ej _ _ Hi%vector_at_Ok Hj%vector_at_Ok. eauto.
Qed.

(** ** removeComponent *)

Lemma componentPos_inj c c' : componentPos c = componentPos c' → c = c'.
Proof. apply IndexOf_inj; apply elem_of_enum. Qed.

Lemma componentPos_lt c : componentPos c < length (ComponentsList (Component := Component)).
Proof. apply IndexOf_lt, elem_of_enum. Qed.

Lemma tagPos_inj t t' :
  tagPosOf t = tagPosOf t' → t = t'.
Proof.
  unfold tagPos. intros Heq. apply (IndexOf_inj t t' TagsList); try apply elem_of_enum. lia.
Qed.

Lemma tagPos_componentPos t c : tagPosOf t ≠ componentPos c.
Proof. pose proof (componentPos_lt c). unfold tagPos. lia. Qed.

Lemma isAlive_true_inv id m :
  isAlive id m = Ok true →
  id < currentSize m ∧ ∃ e, entities m !! id = Some e ∧ get_bool e = true.
Proof.
  unfold isAlive, hasEntity. case_bool_decide; [|done].
  intros Hal. ok_inv Hal as e He. apply vector_at_Ok in He.
  injection Hal as Hal. eauto.
Qed.

Lemma invalidEntity_alive id m :
  isAlive id m = Ok true → invalidEntity id m = Ok false.
Proof.
  intros Hal. unfold invalidEntity. rewrite Hal.
  apply isAlive_true_inv in Hal as [Hlt _].
  unfold hasEntity. by rewrite bool_decide_eq_true_2.
Qed.

(** C7: for every existing, alive entity id and component kind K,
    removeComponent<K>(id) clears only that entity's membership bit for K:
    every component storage array is left untouched, and the entity's alive
    flag, dataSlot, all its other membership bits, all other entity
    records, and currentSize are unchanged. *)
Theorem removeComponent_clears_only_bit c id m :
  hasEntity id m = true → isAlive id m = Ok true →
  ∃ m' e e',
    removeComponent c id m = Ok m' ∧
    entities m !! id = Some e ∧ entities m' !! id = Some e' ∧
    getComponentBit (get_Bitset e') c = false ∧
    componentsStorage m' = componentsStorage m ∧
    get_bool e' = get_bool e ∧ get_size_t e' = get_size_t e ∧
    (∀ pos, pos ≠ componentPos c →
            Bitset_test (get_Bitset e') pos = Bitset_test (get_Bitset e) pos) ∧
    (∀ c', c' ≠ c → getComponentBit (get_Bitset e') c' = getComponentBit (get_Bitset e) c') ∧
    (∀ t, getTagBitOf (get_Bitset e') t = getTagBitOf (get_Bitset e) t) ∧
    length (entities m') = length (entities m) ∧
    (∀ j, j ≠ id → entities m' !! j = entities m !! j) ∧
    currentSize m' = currentSize m ∧ currentCapacity m' = currentCapacity m ∧
    forMatchingFunctions m' = forMatchingFunctions m.
Proof.
  intros _ Hal. unfold removeComponent. rewrite (invalidEntity_alive _ _ Hal). simpl.
  apply isAlive_true_inv in Hal as (Hlt & e & He & Halive).
  unfold assignBit. rewrite (proj2 (vector_index_Ok _ _ e)) by done. simpl.
  rewrite vector_assign_lt by (by eapply lookup_lt_Some). simpl.
  eexists _, e, _. split; [done|]. unfold with_entities.
  cbn [entities componentsStorage currentSize currentCapacity forMatchingFunctions].
  split; [done|]. split; [by apply list_lookup_insert_eq; eapply lookup_lt_Some|].
  unfold getComponentBit, getTagBit. rewrite !get_Bitset_set_Bitset.
  split_and!; try done.
  - apply (Bitset_test_set_eq _ _ false).
  - intros pos Hpos. by apply (Bitset_test_set_ne _ _ _ false).
  - intros c' Hc'. apply (Bitset_test_set_ne _ _ _ false). intros Heq.
    by apply componentPos_inj in Heq.
  - intros t. apply (Bitset_test_set_ne _ _ _ false). intros Heq.
    by eapply tagPos_componentPos.
  - by rewrite length_insert.
  - intros j Hj. by rewrite list_lookup_insert_ne.
Qed.

(** ** forMatchingSignature *)

Lemma getEntityData_Ok c i m e :
  wf m → entities m !! i = Some e → getEntityData c i m = Ok (c, get_size_t e).
Proof.
  intros [Hslots Hst _ _] Hi. unfold getEntityData.
  rewrite (proj2 (vector_at_Ok _ _ e)) by done. simpl.
  destruct (lookup_lt_is_Some_2 (componentsStorage m c) (get_size_t e)) as [v Hv].
  { rewrite Hst. by eapply slots_range. }
  by rewrite (proj2 (vector_at_Ok _ _ v)).
Qed.

Lemma mapM_getEntityData (Types : list Component) i m e :
  wf m → entities m !! i = Some e →
  mapM (λ ty, getEntityData ty i m) Types = Ok ((λ c, (c, get_size_t e)) <$> Types).
Proof.
  intros Hwf Hi. induction Types as [|c Types IH]; [reflexivity|].
  cbn [mapM]. rewrite (getEntityData_Ok c i m e), IH by done. reflexivity.
Qed.

Lemma run_calls_cons function call calls m w :
  run_calls function (call :: calls) m w =
  run_calls function calls (invoke function call.1 call.2 m w).1
                           (invoke function call.1 call.2 m w).2.
Proof.
  unfold run_calls. cbn [foldl fst snd].
  by destruct (invoke function call.1 call.2 m w).
Qed.

(** The loop performs exactly the calls for the selected identifiers among
    [i, i + n), in increasing order. *)
Lemma forMatchingSignature_loop_spec n i bs (Types : list Component) function m w :
  wf m → i + n ≤ currentCapacity m →
  forMatchingSignature_loop n i bs Types function m w =
  Ok (run_calls function
        ((λ j, (j, spec_refs Types (entities m) j))
           <$> filter (λ j, spec_selected bs (entities m) j = true) (seq i n)) m w).
Proof.
  revert i m w. induction n as [|n IH]; intros i m w Hwf Hle; [done|].
  destruct (lookup_lt_is_Some_2 (entities m) i) as [e He].
  { rewrite (slots_length _ _ (wf_slots _ Hwf)). lia. }
  cbn [forMatchingSignature_loop seq].
  rewrite (proj2 (vector_index_Ok _ _ e)) by done. cbn [mbind result_bind].
  rewrite filter_cons.
  assert (spec_selected bs (entities m) i
          = get_bool e && (N.land bs (get_Bitset e) =? bs)%N) as Hsel.
  { unfold spec_selected, spec_matches. by rewrite He. }
  destruct (get_bool e); cbn [negb andb] in *.
  - destruct (N.land bs (get_Bitset e) =? bs)%N.
    + rewrite decide_True by done. rewrite fmap_cons, run_calls_cons.
      unfold ForMatchingSignatureHelper_call.
      rewrite (mapM_getEntityData Types i m e) by done. cbn [mbind result_bind fst snd].
      assert (spec_refs Types (entities m) i = (λ c, (c, get_size_t e)) <$> Types)
        as -> by (unfold spec_refs; by rewrite He).
      rewrite IH.
      * by rewrite (same_entities _ _ (invoke_same_table _ _ _ _ _)).
      * eapply same_table_wf; [apply invoke_same_table|done].
      * rewrite (same_capacity _ _ (invoke_same_table _ _ _ _ _)). lia.
    + rewrite decide_False by (by rewrite Hsel). apply IH; [done|lia].
  - rewrite decide_False by (by rewrite Hsel). apply IH; [done|lia].
Qed.

Lemma filter_seq_sorted (P : nat → Prop) `{∀ x, Decision (P x)} i n :
  StronglySorted lt (filter P (seq i n)).
Proof.
  revert i. induction n as [|n IH]; intros i; simpl; [constructor|].
  rewrite filter_cons. case_decide; [|done].
  apply StronglySorted_cons. split; [|done].
  apply Forall_forall. intros j [_ Hj%elem_of_seq]%list_elem_of_filter. lia.
Qed.

(** The target bitset has exactly the digits of the kinds of the signature. *)
Lemma foldl_Bitset_set_test {A} (pos : A → nat) (l : list A) (b : BitsetType) (p : nat) :
  Bitset_test (foldl (λ b x, Bitset_set b (pos x) true) b l) p = true ↔
  Bitset_test b p = true ∨ ∃ x, x ∈ l ∧ pos x = p.
Proof.
  revert b. induction l as [|x l IH]; intros b; cbn [foldl].
  - split; [by left|]. intros [?|(x & ?%elem_of_nil & _)]; done.
  - rewrite IH. destruct (decide (pos x = p)) as [<-|Hne].
    + rewrite (Bitset_test_set_eq b (pos x) true). split; [|by left].
      intros _. right. exists x. split; [by left|done].
    + rewrite (Bitset_test_set_ne b (pos x) p true) by done.
      split; (intros [?|(y & Hy & ?)]; [by left|right]).
      * exists y. split; [by right|done].
      * apply elem_of_cons in Hy as [->|Hy]; [done|]. eauto.
Qed.

Lemma generateBitset_test s p :
  Bitset_test (generateBitset s) p = true ↔
  (∃ c, inl c ∈ s ∧ componentPos c = p) ∨ (∃ t, inr t ∈ s ∧ tagPosOf t = p).
Proof.
  unfold generateBitset. rewrite !foldl_Bitset_set_test.
  unfold Bitset_test at 1. rewrite N.bits_0. split.
  - intros [[?|(c & Hc & ?)]|(t & Ht & ?)]; [done|left|right].
    + exists c. split; [|done]. apply list_elem_of_omap in Hc as ([c'|t'] & ? & ?); naive_solver.
    + exists t. split; [|done]. apply list_elem_of_omap in Ht as ([c'|t'] & ? & ?); naive_solver.
  - intros [(c & Hc & ?)|(t & Ht & ?)]; [left; right|right].
    + exists c. split; [|done]. apply list_elem_of_omap. by exists (inl c).
    + exists t. split; [|done]. apply list_elem_of_omap. by exists (inr t).
Qed.

Lemma land_superset (target b : BitsetType) :
  N.land target b = target ↔
  ∀ p : nat, Bitset_test target p = true → Bitset_test b p = true.
Proof.
  unfold Bitset_test. split.
  - intros Hland p Hp. rewrite <- Hland in Hp. rewrite N.land_spec in Hp.
    by apply andb_true_iff in Hp as [_ ?].
  - intros Hsup. apply N.bits_inj. intros q. rewrite N.land_spec.
    destruct (N.testbit target q) eqn:Hq; [|done]. simpl.
    specialize (Hsup (N.to_nat q)). rewrite N2Nat.id in Hsup. auto.
Qed.

(** Membership is a superset of the signature. *)
Lemma matches_superset s (b : BitsetType) :
  N.land (generateBitset s) b = generateBitset s ↔
  (∀ c, inl c ∈ s → getComponentBit b c = true) ∧
  (∀ t, inr t ∈ s → getTagBitOf b t = true).
Proof.
  rewrite land_superset. unfold getComponentBit, getTagBit. split.
  - intros Hsup. split; [intros c Hc|intros t Ht];
      apply Hsup, generateBitset_test; eauto.
  - intros [Hc Ht] p [(c & ? & <-)|(t & ? & <-)]%generateBitset_test; eauto.
Qed.

Lemma spec_calls_ids s m :
  (spec_calls s m).*1 = spec_matching_ids (generateBitset s) (entities m) (currentSize m).
Proof.
  unfold spec_calls. rewrite <- list_fmap_compose. apply list_fmap_id.
Qed.

(** C2: forEachMatching ([forMatchingSignature]) invokes the handler exactly
    once for each alive entity id in 0..currentSize, in increasing id
    order, whose membership bitset ANDed with the target bitset built from
    the signature equals the target bitset (membership is a superset of the
    signature), skipping dead entities and entities at or beyond
    currentSize, and passes the handler the id plus references to component
    storage at that entity's dataSlot in the signature's component order
    with tags excluded. *)
Theorem forMatchingSignature_invokes_matching s function m w :
  Reachable m →
  forMatchingSignature s function m w
    = Ok (run_calls function (spec_calls s m) m w) ∧
  StronglySorted lt (spec_calls s m).*1 ∧
  NoDup (spec_calls s m).*1 ∧
  (∀ i, i ∈ (spec_calls s m).*1 ↔
        i < currentSize m ∧
        ∃ e, entities m !! i = Some e ∧ get_bool e = true ∧
             N.land (generateBitset s) (get_Bitset e) = generateBitset s) ∧
  (∀ b : BitsetType,
      N.land (generateBitset s) b = generateBitset s ↔
      (∀ c, inl c ∈ s → getComponentBit b c = true) ∧
      (∀ t, inr t ∈ s → getTagBitOf b t = true)) ∧
  (∀ (i : nat) (refs : list Ref), (i, refs) ∈ spec_calls s m →
      ∃ e, entities m !! i = Some e ∧
           refs = (λ c, (c, get_size_t e)) <$> MatchingComponents s ∧
           Forall (λ ref, is_Some (load (componentsStorage m) ref)) refs).
Proof.
  intros Hwf%reachable_wf. split_and!.
  - unfold forMatchingSignature.
    rewrite forMatchingSignature_loop_spec; [done|done|]. simpl. apply (wf_size _ Hwf).
  - rewrite spec_calls_ids. apply filter_seq_sorted.
  - rewrite spec_calls_ids. apply NoDup_filter, NoDup_seq.
  - intros i. rewrite spec_calls_ids. unfold spec_matching_ids.
    rewrite list_elem_of_filter, elem_of_seq. unfold spec_selected, spec_matches.
    split.
    + intros [Hsel [_ Hlt]]. split; [lia|].
      destruct (entities m !! i) as [e|]; [|done].
      apply andb_true_iff in Hsel as [? ?%N.eqb_eq]. eauto.
    + intros [Hlt (e & He & Hb & Hland)]. split; [|lia].
      rewrite He, Hb. simpl. by apply N.eqb_eq.
  - apply matches_superset.
  - intros i refs (j & [= <- ->] & Hj)%list_elem_of_fmap.
    apply list_elem_of_filter in Hj as [Hsel _]. unfold spec_selected in Hsel.
    unfold spec_refs. destruct (entities m !! i) as [e|] eqn:He; [|done].
    exists e. split_and!; try done.
    apply Forall_fmap, Forall_forall. intros c _. unfold load. simpl.
    apply lookup_lt_is_Some. rewrite (wf_storage _ Hwf).
    by eapply (slots_range _ _ (wf_slots _ Hwf)).
Qed.

(** ** Stored functions *)

Lemma register_all_functions regs m :
  forMatchingFunctions (register_all regs m)
    = forMatchingFunctions m ++ (closure_of <$> regs).
Proof.
  unfold register_all. revert m. induction regs as [|r regs IH]; intros m; simpl.
  - by rewrite app_nil_r.
  - rewrite IH. simpl. by rewrite <- app_assoc.
Qed.

Lemma callForMatchingFunctions_loop_app (fs1 fs2 : list Closure) m w :
  callForMatchingFunctions_loop (fs1 ++ fs2) m w =
  (x ← callForMatchingFunctions_loop fs1 m w; callForMatchingFunctions_loop fs2 x.1 x.2).
Proof.
  revert m w. induction fs1 as [|f fs1 IH]; intros m w; simpl; [done|].
  destruct (Closure_call f m w) as [[m1 w1]|]; simpl; [apply IH|done].
Qed.

Lemma callForMatchingFunctions_loop_closures regs m w :
  callForMatchingFunctions_loop (closure_of <$> regs) m w = spec_invokeAll regs m w.
Proof.
  revert m w. induction regs as [|r regs IH]; intros m w; simpl; [done|].
  rewrite Closure_call_closure_of.
  destruct (forMatchingSignature r.1 r.2 m w) as [[m1 w1]|]; simpl; [apply IH|done].
Qed.

(** C10: for every signature and handler registered via register
    ([addForMatchingFunction]), each later invokeAll
    ([callForMatchingFunctions]) runs the stored closures in registration
    order, and each closure, evaluated against the table state current at
    that moment, invokes the handler on exactly the same entities with the
    same arguments as a direct forEachMatching ([forMatchingSignature]) call
    with that signature and handler would. *)
Theorem callForMatchingFunctions_refines_direct_calls regs m w :
  forMatchingFunctions (register_all regs m)
    = forMatchingFunctions m ++ (closure_of <$> regs) ∧
  (∀ r m1 w1, Closure_call (closure_of r) m1 w1 = forMatchingSignature r.1 r.2 m1 w1) ∧
  callForMatchingFunctions (register_all regs m) w
    = (x ← callForMatchingFunctions_loop (forMatchingFunctions m) (register_all regs m) w;
       spec_invokeAll regs x.1 x.2) ∧
  callForMatchingFunctions (register_all regs (clearForMatchingFunctions m)) w
    = spec_invokeAll regs (register_all regs (clearForMatchingFunctions m)) w.
Proof.
  split_and!.
  - apply register_all_functions.
  - apply Closure_call_closure_of.
  - unfold callForMatchingFunctions.
    rewrite register_all_functions, callForMatchingFunctions_loop_app.
    destruct (callForMatchingFunctions_loop _ _ _) as [[m1 w1]|]; simpl; [|done].
    apply callForMatchingFunctions_loop_closures.
  - unfold callForMatchingFunctions. rewrite register_all_functions. simpl.
    apply callForMatchingFunctions_loop_closures.
Qed.

(** ** Calls on entities that do not exist or are dead *)

Lemma invalidEntity_dead id m :
  isAlive id m = Ok false → invalidEntity id m = Ok true.
Proof.
  intros Hal. unfold invalidEntity. destruct (hasEntity id m); [|done].
  simpl. by rewrite Hal.
Qed.

Lemma isAlive_false_dead id m e :
  wf m → isAlive id m = Ok false → entities m !! id = Some e → get_bool e = false.
Proof.
  intros Hwf Hal He. unfold isAlive, hasEntity in Hal. case_bool_decide as Hlt.
  - rewrite (proj2 (vector_at_Ok _ _ e)) in Hal by done. by injection Hal.
  - eapply (wf_dead _ Hwf); [done|lia].
Qed.

(** C5 (amended): for every id referring to a non-existent or already-dead
    entity (isAlive(id) is false), addComponent, removeComponent, addTag and
    removeTag return without signaling an error and leave the entire table
    state unchanged; markDeleted ([deleteEntity]) does so when id is below
    currentCapacity, and fails with an out-of-range fault when id is at or
    beyond currentCapacity. *)
Theorem invalid_entity_calls_are_ignored id m :
  Reachable m → isAlive id m = Ok false →
  (∀ c args, addComponent construct c id args m = Ok m) ∧
  (∀ c, removeComponent c id m = Ok m) ∧
  (∀ t, addTag (Component := Component) t id m = Ok m) ∧
  (∀ t, removeTag (Component := Component) t id m = Ok m) ∧
  (id < currentCapacity m → deleteEntity id m = Ok m) ∧
  (currentCapacity m ≤ id → deleteEntity id m = Fail OutOfRange).
Proof.
  intros Hwf%reachable_wf Hal. pose proof (invalidEntity_dead _ _ Hal) as Hinv.
  pose proof (slots_length _ _ (wf_slots _ Hwf)) as Hlen.
  unfold addComponent, removeComponent, addTag, removeTag. rewrite Hinv.
  split_and!; try done.
  - intros Hlt. unfold deleteEntity.
    destruct (lookup_lt_is_Some_2 (entities m) id ltac:(lia)) as [e He].
    rewrite (proj2 (vector_at_Ok _ _ e)) by done. simpl.
    rewrite <- (isAlive_false_dead id m e) by done.
    by rewrite set_bool_same, list_insert_id, with_entities_same.
  - intros Hge. unfold deleteEntity.
    rewrite (proj2 (vector_at_Fail (entities m) id)) by lia. done.
Qed.

(** ** Membership reads *)

(** C6 (amended): for every id at or beyond currentCapacity (the allocated
    table) the reads hasComponent<K>(id) and hasTag<T>(id) are a hard
    failure; for every id below currentCapacity — also when exists(id) is
    false because currentSize ≤ id — they return the membership bit of the
    record at that position. *)
Theorem membership_reads_fail_beyond_capacity id m :
  Reachable m →
  (currentCapacity m ≤ id →
     (∀ c, hasComponent c id m = Fail OutOfRange) ∧
     (∀ t, hasTag (Component := Component) t id m = Fail OutOfRange)) ∧
  (id < currentCapacity m →
     ∃ e, getEntityInfo id m = Ok e ∧
          (∀ c, hasComponent c id m = Ok (getComponentBit (get_Bitset e) c)) ∧
          (∀ t, hasTag t id m = Ok (getTagBitOf (get_Bitset e) t))).
Proof.
  intros Hwf%reachable_wf.
  pose proof (slots_length _ _ (wf_slots _ Hwf)) as Hlen.
  unfold hasComponent, hasTag, getEntityInfo. split.
  - intros Hge. rewrite (proj2 (vector_at_Fail (entities m) id)) by lia. done.
  - intros Hlt. destruct (lookup_lt_is_Some_2 (entities m) id ltac:(lia)) as [e He].
    exists e. by rewrite (proj2 (vector_at_Ok _ _ e)).
Qed.

(** ** addComponent *)

(** C9 (amended): for every id of an alive entity, component kind K and
    constructor arguments args, calling addComponent<K>(id, args) and then
    reading the component for id ([getEntityData<K>(id)]) yields a value
    equal to the one constructed from args, and hasComponent<K>(id) is true
    afterwards. *)
Theorem addComponent_round_trip c id args m :
  Reachable m → isAlive id m = Ok true →
  ∃ m' ref,
    addComponent construct c id args m = Ok m' ∧
    getEntityData c id m' = Ok ref ∧
    load (componentsStorage m') ref = Some (construct c args) ∧
    hasComponent c id m' = Ok true.
Proof.
  intros Hwf%reachable_wf Hal.
  unfold addComponent. rewrite (invalidEntity_alive _ _ Hal).
  apply isAlive_true_inv in Hal as (Hlt & e & He & Halive).
  pose proof (lookup_lt_Some _ _ _ He) as Hlen.
  assert (get_size_t e < length (componentsStorage m c)) as Hslot.
  { rewrite (wf_storage _ Hwf). by eapply (slots_range _ _ (wf_slots _ Hwf)). }
  unfold assignBit. cbn [mbind result_bind].
  rewrite (proj2 (vector_index_Ok _ _ e)) by done. cbn [mbind result_bind].
  rewrite vector_assign_lt by done. cbn [mbind result_bind].
  unfold with_entities at 1 2 3. cbn [entities componentsStorage].
  rewrite (proj2 (vector_index_Ok _ _
             (set_Bitset (Bitset_set (get_Bitset e) (componentPos c) true) e)))
    by (by apply list_lookup_insert_eq).
  cbn [mbind result_bind]. rewrite vector_assign_lt by done. cbn [mbind result_bind].
  eexists _, (c, get_size_t e). split; [done|].
  unfold getEntityData, hasComponent, load, with_storage, with_entities.
  cbn [entities componentsStorage fst snd].
  rewrite (proj2 (vector_at_Ok _ _
             (set_Bitset (Bitset_set (get_Bitset e) (componentPos c) true) e)))
    by (by apply list_lookup_insert_eq).
  cbn [mbind result_bind]. rewrite fn_lookup_insert.
  rewrite (proj2 (vector_at_Ok _ _ (construct c args)))
    by (by apply list_lookup_insert_eq).
  split_and!; try done.
  - by apply list_lookup_insert_eq.
  - unfold getComponentBit. rewrite get_Bitset_set_Bitset.
    by rewrite Bitset_test_set_eq.
Qed.

(** ** Further properties of the code *)

(** *** cleanup *)

Lemma cleanup_inner_get_bool es rhs out i :
  cleanup_inner es rhs = Ok out →
  get_bool <$> (match out with Returned es' | Continue es' _ => es' end) !! i
  = get_bool <$> es !! i.
Proof.
  revert es. induction rhs as [|rhs IH]; intros es; rewrite cleanup_inner_eq;
    intros Hin; ok_inv Hin as e He; apply vector_index_Ok in He;
    destruct (get_bool e) eqn:Hb; try (by injection Hin as <-).
  ok_inv Hin as es1 Hes1. apply vector_assign_Ok in Hes1 as [_ ->].
  rewrite (IH _ Hin). destruct (decide (S rhs = i)) as [<-|Hne].
  - rewrite list_lookup_insert_eq by (by eapply lookup_lt_Some). by rewrite He.
  - by rewrite list_lookup_insert_ne.
Qed.

Lemma cleanup_inner_alive_below es rhs out n :
  cleanup_inner es rhs = Ok out → alive_below n es →
  alive_below n (match out with Returned es' | Continue es' _ => es' end).
Proof.
  intros Hin Hal i e Hi He.
  pose proof (cleanup_inner_get_bool es rhs out i Hin) as Hb. rewrite He in Hb.
  destruct (es !! i) as [e0|] eqn:He0; [|done].
  injection Hb as ->. by eapply Hal.
Qed.

Lemma cleanup_inner_Continue_alive es rhs es' rhs' :
  cleanup_inner es rhs = Ok (Continue es' rhs') →
  ∃ e, es' !! rhs' = Some e ∧ get_bool e = true.
Proof.
  revert es. induction rhs as [|rhs IH]; intros es; rewrite cleanup_inner_eq;
    intros Hin; ok_inv Hin as e He; apply vector_index_Ok in He;
    destruct (get_bool e) eqn:Hb; try (injection Hin as <- <-; by eauto); try done.
  ok_inv Hin as es1 Hes1. by eapply IH.
Qed.

Lemma cleanup_outer_alive_below fuel es lhs rhs es' n :
  alive_below lhs es → cleanup_outer fuel es lhs rhs = Ok (es', n) →
  alive_below (n - 1) es'.
Proof.
  revert es lhs rhs. induction fuel as [|fuel IH]; intros es lhs rhs Hal; simpl;
    (case_decide as Hlr;
     [|intros [= <- <-]; intros i e Hi; apply Hal; lia]); [done|].
  intros Hout. ok_inv Hout as inner Hin.
  pose proof (cleanup_inner_alive_below _ _ _ _ Hin Hal) as Hal1.
  destruct inner as [es1|es1 rhs1].
  { injection Hout as <- <-. intros i e Hi. lia. }
  apply cleanup_inner_Continue_alive in Hin as (er0 & Her0 & Hbr).
  case_decide as Hmeet.
  { injection Hout as <- <-. intros i e Hi. apply Hal1. lia. }
  ok_inv Hout as el Hel. apply vector_index_Ok in Hel.
  destruct (get_bool el) eqn:Hb; simpl in Hout.
  - eapply IH; [|done]. intros i e Hi He.
    destruct (decide (i = lhs)) as [->|]; [congruence|]. apply (Hal1 i); [lia|done].
  - ok_inv Hout as er Her. apply vector_at_Ok in Her.
    ok_inv Hout as e He. ok_inv Hout as es3 Hes3.
    apply vector_assign_Ok in Hes3 as [_ ->].
    eapply IH; [|done]. intros i ei Hi Hei.
    rewrite !list_lookup_insert_ne in Hei by lia.
    apply list_lookup_insert_Some in Hei as [(_ & <- & _)|[? Hei]]; [congruence|].
    apply (Hal1 i); [lia|done].
Qed.

(** X2: when [cleanup] returns, every record below currentSize - 1 is alive:
    a dead record can remain below currentSize only at the last position,
    currentSize - 1. *)
Theorem cleanup_dead_only_at_last_position (m m' : Mgr) :
  cleanup m = Ok m' →
  ∀ i e, S i < currentSize m' → entities m' !! i = Some e → get_bool e = true.
Proof.
  unfold cleanup. case_decide as Hempty.
  { intros [= <-] i e Hi. lia. }
  intros Hcl. ok_inv Hcl as r Hr. destruct r as [es' n]. injection Hcl as <-.
  simpl. intros i e Hi.
  eapply (cleanup_outer_alive_below _ _ 0 _ es' n); [|done|lia].
  intros j ej Hj. lia.
Qed.

Lemma cleanup_outer_all_alive fuel es lhs rhs :
  (∀ i, lhs ≤ i ≤ rhs → ∃ e, es !! i = Some e ∧ get_bool e = true) →
  rhs - lhs ≤ fuel →
  cleanup_outer fuel es lhs rhs = Ok (es, rhs + 1).
Proof.
  revert lhs. induction fuel as [|fuel IH]; intros lhs Hal Hfuel; simpl.
  { by rewrite decide_False by lia. }
  case_decide as Hlr; [|done].
  destruct (Hal rhs ltac:(lia)) as (er & Her & Hbr).
  rewrite cleanup_inner_eq, (proj2 (vector_index_Ok _ _ er)) by done. simpl.
  rewrite Hbr. simpl. rewrite decide_False by lia.
  destruct (Hal lhs ltac:(lia)) as (el & Hel & Hbl).
  rewrite (proj2 (vector_index_Ok _ _ el)) by done. simpl. rewrite Hbl. simpl.
  apply IH; [|lia]. intros i Hi. apply Hal. lia.
Qed.

(** X3: on a table without a dead entity below currentSize, [cleanup] returns
    and changes nothing. *)
Theorem cleanup_without_dead_entities_is_identity (m : Mgr) :
  (∀ i, i < currentSize m → ∃ e, entities m !! i = Some e ∧ get_bool e = true) →
  cleanup m = Ok m.
Proof.
  intros Hal. unfold cleanup. case_decide as Hempty; [done|].
  rewrite cleanup_outer_all_alive; [|intros i Hi; apply Hal; lia|lia]. simpl.
  replace (currentSize m - 1 + 1) with (currentSize m) by lia. by destruct m.
Qed.

(** *** deleteEntity and isAlive *)

(** X4: in a reachable state, deleteEntity on an existing entity returns and
    tombstones it: isAlive becomes false while hasEntity stays true; the
    record keeps its dataSlot and membership, and every other record, the
    component storage and the sizes are unchanged. *)
Theorem deleteEntity_tombstones id m :
  Reachable m → hasEntity id m = true →
  ∃ m' e,
    deleteEntity id m = Ok m' ∧
    getEntityInfo id m = Ok e ∧
    getEntityInfo id m' = Ok (false, get_size_t e, get_Bitset e) ∧
    isAlive id m' = Ok false ∧ hasEntity id m' = true ∧
    (∀ j, j ≠ id → entities m' !! j = entities m !! j) ∧
    componentsStorage m' = componentsStorage m ∧
    currentSize m' = currentSize m ∧ currentCapacity m' = currentCapacity m.
Proof.
  intros Hwf%reachable_wf Hex. unfold hasEntity in Hex.
  apply bool_decide_eq_true_1 in Hex.
  pose proof (slots_length _ _ (wf_slots _ Hwf)) as Hlen. pose proof (wf_size _ Hwf).
  destruct (lookup_lt_is_Some_2 (entities m) id ltac:(lia)) as [e He].
  unfold deleteEntity, getEntityInfo, isAlive, hasEntity.
  rewrite (proj2 (vector_at_Ok _ _ e)) by done. cbn [mbind result_bind].
  eexists _, e. split; [done|]. unfold with_entities.
  cbn [entities componentsStorage currentSize currentCapacity].
  rewrite bool_decide_eq_true_2 by done.
  rewrite (proj2 (vector_at_Ok _ _ (set_bool false e)))
    by (apply list_lookup_insert_eq; lia).
  split_and!; try done. intros j Hj. by rewrite list_lookup_insert_ne.
Qed.

(** X5: in a reachable state isAlive returns a boolean for every id, in
    range or not; it is true only for ids below currentSize, and no record
    at or above currentSize carries the alive flag. *)
Theorem isAlive_never_fails id m :
  Reachable m →
  ∃ b, isAlive id m = Ok b ∧
       (b = true → hasEntity id m = true) ∧
       (∀ e, currentSize m ≤ id → getEntityInfo id m = Ok e → get_bool e = false).
Proof.
  intros Hwf%reachable_wf.
  pose proof (slots_length _ _ (wf_slots _ Hwf)) as Hlen. pose proof (wf_size _ Hwf).
  unfold isAlive, hasEntity, getEntityInfo. case_bool_decide as Hlt.
  - destruct (lookup_lt_is_Some_2 (entities m) id ltac:(lia)) as [e He].
    rewrite (proj2 (vector_at_Ok _ _ e)) by done. exists (get_bool e).
    split_and!; try done. intros e' Hge. lia.
  - exists false. split_and!; try done.
    intros e Hge He%vector_at_Ok. by eapply (wf_dead _ Hwf).
Qed.

(** *** membership bits *)

Lemma assignBit_eq entityID pos value m e :
  entities m !! entityID = Some e →
  assignBit entityID pos value m
  = Ok (with_entities
          (<[entityID := set_Bitset (Bitset_set (get_Bitset e) pos value) e]> (entities m)) m).
Proof.
  intros He. unfold assignBit.
  rewrite (proj2 (vector_index_Ok _ _ e)) by done. cbn [mbind result_bind].
  by rewrite vector_assign_lt by (by eapply lookup_lt_Some).
Qed.

(** What assigning one membership digit of an alive entity changes. *)
Lemma assignBit_frame entityID pos value m e :
  entities m !! entityID = Some e →
  ∃ m' e',
    assignBit entityID pos value m = Ok m' ∧
    entities m' !! entityID = Some e' ∧
    Bitset_test (get_Bitset e') pos = value ∧
    get_bool e' = get_bool e ∧ get_size_t e' = get_size_t e ∧
    (∀ pos', pos' ≠ pos →
             Bitset_test (get_Bitset e') pos' = Bitset_test (get_Bitset e) pos') ∧
    (∀ j, j ≠ entityID → entities m' !! j = entities m !! j) ∧
    componentsStorage m' = componentsStorage m ∧
    currentSize m' = currentSize m ∧ currentCapacity m' = currentCapacity m.
Proof.
  intros He. rewrite (assignBit_eq _ _ _ _ e) by done.
  eexists _, _. split; [done|]. unfold with_entities.
  cbn [entities componentsStorage currentSize currentCapacity].
  split; [by apply list_lookup_insert_eq; eapply lookup_lt_Some|].
  rewrite get_Bitset_set_Bitset. split_and!; try done.
  - apply Bitset_test_set_eq.
  - intros pos' Hne. by apply Bitset_test_set_ne.
  - intros j Hj. by rewrite list_lookup_insert_ne.
Qed.

(** X6: on an alive entity addTag sets and removeTag clears exactly the
    digit of that tag, and hasTag reads it back; the alive flag, the
    dataSlot, every component digit, every other tag digit, every other
    record, the component storage and the sizes are unchanged. *)
Theorem addTag_removeTag_change_only_that_tag t id m :
  isAlive id m = Ok true →
  ∃ e, entities m !! id = Some e ∧
    ∀ value : bool,
    ∃ m' e',
      (if value then addTag (Component := Component) t id m
       else removeTag (Component := Component) t id m) = Ok m' ∧
      hasTag t id m' = Ok value ∧
      entities m' !! id = Some e' ∧
      get_bool e' = get_bool e ∧ get_size_t e' = get_size_t e ∧
      (∀ c, getComponentBit (get_Bitset e') c = getComponentBit (get_Bitset e) c) ∧
      (∀ t', t' ≠ t → getTagBitOf (get_Bitset e') t' = getTagBitOf (get_Bitset e) t') ∧
      (∀ j, j ≠ id → entities m' !! j = entities m !! j) ∧
      componentsStorage m' = componentsStorage m ∧
      currentSize m' = currentSize m ∧ currentCapacity m' = currentCapacity m.
Proof.
  intros Hal. pose proof (invalidEntity_alive _ _ Hal) as Hinv.
  apply isAlive_true_inv in Hal as (Hlt & e & He & Halive).
  exists e. split; [done|]. intros value.
  destruct (assignBit_frame id (tagPosOf t) value m e He)
    as (m' & e' & Hset & He' & Hbit & Hb & Hs & Hother & Hrec & Hst & Hsz & Hcap).
  exists m', e'. split.
  { unfold addTag, removeTag. rewrite Hinv. by destruct value. }
  unfold hasTag, getTagBit, getComponentBit.
  rewrite (proj2 (vector_at_Ok _ _ e')) by done. cbn [mbind result_bind].
  rewrite Hbit. split_and!; try done.
  - intros c. apply Hother. intros Heq. by eapply tagPos_componentPos.
  - intros t' Hne. apply Hother. intros Heq. by apply tagPos_inj in Heq.
Qed.

(** *** addComponent and getEntityData *)

Lemma addComponent_eq c id args m e :
  wf m → id < currentSize m → entities m !! id = Some e → get_bool e = true →
  addComponent construct c id args m
  = Ok (with_storage
          (<[c := <[get_size_t e := construct c args]> (componentsStorage m c)]>
             (componentsStorage m))
          (with_entities
             (<[id := set_Bitset (Bitset_set (get_Bitset e) (componentPos c) true) e]>
                (entities m)) m)).
Proof.
  intros Hwf Hlt He Halive. unfold addComponent, invalidEntity, isAlive, hasEntity.
  rewrite bool_decide_eq_true_2 by done. cbn [negb].
  rewrite (proj2 (vector_at_Ok _ _ e)) by done. cbn [mbind result_bind].
  rewrite Halive. cbn [negb]. rewrite (assignBit_eq _ _ _ _ e) by done.
  cbn [mbind result_bind]. unfold with_entities at 1 2.
  cbn [entities componentsStorage].
  rewrite (proj2 (vector_index_Ok _ _
             (set_Bitset (Bitset_set (get_Bitset e) (componentPos c) true) e)))
    by (by apply list_lookup_insert_eq; eapply lookup_lt_Some).
  cbn [mbind result_bind]. rewrite vector_assign_lt; [done|].
  change (get_size_t e < length (componentsStorage m c)).
  rewrite (wf_storage _ Hwf). by eapply (slots_range _ _ (wf_slots _ Hwf)).
Qed.

(** X7: in a reachable state addComponent on an alive entity writes one
    cell — the entity's dataSlot in the vector of that kind — and sets one
    digit: other kinds' vectors, other cells of the vector, other records
    and the sizes are unchanged, and what any other entity reads through
    getEntityData is the value it read before. *)
Theorem addComponent_writes_one_cell c id args m :
  Reachable m → isAlive id m = Ok true →
  ∃ m' e e',
    addComponent construct c id args m = Ok m' ∧
    entities m !! id = Some e ∧ entities m' !! id = Some e' ∧
    get_bool e' = get_bool e ∧ get_size_t e' = get_size_t e ∧
    (∀ pos, pos ≠ componentPos c →
            Bitset_test (get_Bitset e') pos = Bitset_test (get_Bitset e) pos) ∧
    (∀ j, j ≠ id → entities m' !! j = entities m !! j) ∧
    (∀ c', c' ≠ c → componentsStorage m' c' = componentsStorage m c') ∧
    (∀ i, i ≠ get_size_t e → componentsStorage m' c !! i = componentsStorage m c !! i) ∧
    (∀ j c' ref, j ≠ id → getEntityData c' j m = Ok ref →
                 getEntityData c' j m' = Ok ref ∧
                 load (componentsStorage m') ref = load (componentsStorage m) ref) ∧
    currentSize m' = currentSize m ∧ currentCapacity m' = currentCapacity m.
Proof.
  intros Hwf%reachable_wf Hal.
  apply isAlive_true_inv in Hal as (Hlt & e & He & Halive).
  rewrite (addComponent_eq c id args m e) by done.
  eexists _, e, _. split; [done|]. unfold with_storage, with_entities.
  cbn [entities componentsStorage currentSize currentCapacity].
  split; [done|]. split; [by apply list_lookup_insert_eq; eapply lookup_lt_Some|].
  rewrite get_Bitset_set_Bitset.
  assert (∀ i, i ≠ get_size_t e →
            (<[c := <[get_size_t e := construct c args]> (componentsStorage m c)]>
               (componentsStorage m)) c !! i = componentsStorage m c !! i) as Hcell.
  { intros i Hi. rewrite fn_lookup_insert. by rewrite list_lookup_insert_ne. }
  split_and!; try done.
  - intros pos Hpos. by apply Bitset_test_set_ne.
  - intros j Hj. by rewrite list_lookup_insert_ne.
  - intros c' Hc'. by rewrite fn_lookup_insert_ne.
  - intros j c' ref Hj Hget. unfold getEntityData in *.
    cbn [entities componentsStorage].
    ok_inv Hget as ej Hej. ok_inv Hget as v Hv. injection Hget as <-.
    apply vector_at_Ok in Hej, Hv.
    rewrite (proj2 (vector_at_Ok _ _ ej)) by (by rewrite list_lookup_insert_ne).
    cbn [mbind result_bind].
    assert (get_size_t ej ≠ get_size_t e) as Hslot.
    { intros Heq. by apply Hj, (slots_inj _ _ (wf_slots _ Hwf) j id ej e). }
    assert ((<[c := <[get_size_t e := construct c args]> (componentsStorage m c)]>
               (componentsStorage m)) c' !! get_size_t ej = Some v) as Hst.
    { destruct (decide (c = c')) as [<-|Hne].
      - by rewrite Hcell.
      - by rewrite fn_lookup_insert_ne. }
    rewrite (proj2 (vector_at_Ok _ _ v)) by done.
    split; [done|]. unfold load. cbn [fst snd]. by rewrite Hst, Hv.
Qed.

(** X8: the stale value: after addComponent and then removeComponent on an
    alive entity, hasComponent is false, and getEntityData still returns the
    reference to the value constructed by addComponent. *)
Theorem removeComponent_leaves_value_in_storage c id args m :
  Reachable m → isAlive id m = Ok true →
  ∃ m1 m2 ref,
    addComponent construct c id args m = Ok m1 ∧
    removeComponent c id m1 = Ok m2 ∧
    hasComponent c id m2 = Ok false ∧
    getEntityData c id m2 = Ok ref ∧
    load (componentsStorage m2) ref = Some (construct c args).
Proof.
  intros Hwf%reachable_wf Hal.
  apply isAlive_true_inv in Hal as (Hlt & e & He & Halive).
  pose proof (lookup_lt_Some _ _ _ He) as Hlen.
  rewrite (addComponent_eq c id args m e) by done.
  eexists _, _, (c, get_size_t e). split; [done|].
  set (e1 := set_Bitset (Bitset_set (get_Bitset e) (componentPos c) true) e).
  unfold removeComponent, invalidEntity, isAlive, hasEntity, with_storage, with_entities.
  cbn [entities componentsStorage currentSize].
  rewrite bool_decide_eq_true_2 by done. cbn [negb].
  rewrite (proj2 (vector_at_Ok _ _ e1)) by (by apply list_lookup_insert_eq).
  cbn [mbind result_bind]. replace (get_bool e1) with true by done. cbn [negb].
  rewrite (assignBit_eq _ _ _ _ e1) by (by apply list_lookup_insert_eq).
  split; [done|]. unfold hasComponent, getEntityData, load, with_entities.
  cbn [entities componentsStorage fst snd].
  rewrite list_insert_insert_eq.
  rewrite (proj2 (vector_at_Ok _ _
             (set_Bitset (Bitset_set (get_Bitset e1) (componentPos c) false) e1)))
    by (by apply list_lookup_insert_eq).
  cbn [mbind result_bind]. rewrite fn_lookup_insert.
  assert (get_size_t e < length (componentsStorage m c)) as Hslot.
  { rewrite (wf_storage _ Hwf). by eapply (slots_range _ _ (wf_slots _ Hwf)). }
  replace (get_size_t (set_Bitset _ e1)) with (get_size_t e) by done.
  rewrite (proj2 (vector_at_Ok _ _ (construct c args)))
    by (by apply list_lookup_insert_eq).
  split_and!; try done.
  - unfold getComponentBit. rewrite get_Bitset_set_Bitset.
    by rewrite Bitset_test_set_eq.
  - by apply list_lookup_insert_eq.
Qed.

(** X9: in a reachable state getEntityData and getEntityInfo fail exactly
    for ids at or beyond currentCapacity; below it getEntityData returns the
    reference at the record's dataSlot, which holds a value, whether or not
    the entity is alive or owns the component. *)
Theorem getEntityData_fails_only_beyond_capacity c id m :
  Reachable m →
  (currentCapacity m ≤ id →
     getEntityData c id m = Fail OutOfRange ∧ getEntityInfo id m = Fail OutOfRange) ∧
  (id < currentCapacity m →
     ∃ e v, getEntityInfo id m = Ok e ∧
            getEntityData c id m = Ok (c, get_size_t e) ∧
            getEntityComponent c id m = Ok (c, get_size_t e) ∧
            load (componentsStorage m) (c, get_size_t e) = Some v).
Proof.
  intros Hwf%reachable_wf.
  pose proof (slots_length _ _ (wf_slots _ Hwf)) as Hlen.
  unfold getEntityComponent, getEntityInfo. split.
  - intros Hge. unfold getEntityData.
    by rewrite (proj2 (vector_at_Fail (entities m) id)) by lia.
  - intros Hlt. destruct (lookup_lt_is_Some_2 (entities m) id ltac:(lia)) as [e He].
    destruct (lookup_lt_is_Some_2 (componentsStorage m c) (get_size_t e)) as [v Hv].
    { rewrite (wf_storage _ Hwf). by eapply (slots_range _ _ (wf_slots _ Hwf)). }
    exists e, v. rewrite (getEntityData_Ok c id m e) by done.
    by rewrite (proj2 (vector_at_Ok _ _ e)).
Qed.

(** *** addEntity and resize *)

Lemma vector_resize_idemp {A} (v : list A) (n : nat) (d : A) :
  vector_resize (vector_resize v n d) n d = vector_resize v n d.
Proof.
  unfold vector_resize at 1. rewrite vector_resize_length, Nat.sub_diag.
  rewrite take_ge by (rewrite vector_resize_length; lia). apply app_nil_r.
Qed.

Lemma resize_storage_eq (n : nat) (l : list Component) (st : Component → list Val) c :
  foldl (λ st ty, <[ty := vector_resize (st ty) n (default_value ty)]> st) st l c
  = if decide (c ∈ l) then vector_resize (st c) n (default_value c) else st c.
Proof.
  revert st. induction l as [|ty l IH]; intros st; cbn [foldl].
  - rewrite decide_False; [done|]. apply not_elem_of_nil.
  - rewrite IH. destruct (decide (ty = c)) as [->|Hne].
    + rewrite fn_lookup_insert, (decide_True (P := c ∈ c :: l)) by (by left).
      case_decide; [apply vector_resize_idemp|done].
    + rewrite fn_lookup_insert_ne by done.
      destruct (decide (c ∈ l)) as [Hin|Hnin].
      * by rewrite decide_True by (by right).
      * rewrite decide_False; [done|]. intros [?|?]%elem_of_cons; congruence.
Qed.

(** [resize] appends default-constructed values and keeps the ones there. *)
Lemma resize_storage n m m' :
  wf m → resize default_value n m = Ok m' →
  ∀ c, componentsStorage m' c
       = componentsStorage m c
         ++ replicate (currentCapacity m' - currentCapacity m) (default_value c).
Proof.
  intros Hwf Hres c. unfold resize in Hres. case_decide as Hcap.
  - injection Hres as <-. by rewrite Nat.sub_diag, app_nil_r.
  - ok_inv Hres as es Hes. injection Hres as <-. cbn [componentsStorage currentCapacity].
    rewrite resize_storage_eq, decide_True by apply elem_of_enum.
    rewrite vector_resize_grow by (rewrite (wf_storage _ Hwf); lia).
    by rewrite (wf_storage _ Hwf).
Qed.

(** The manager [addEntity] works on after the capacity check. *)
Lemma addEntity_inv m id m' :
  wf m → addEntity default_value m = Ok (id, m') →
  ∃ m1 e,
    (if decide (currentSize m = currentCapacity m)
     then resize default_value (currentCapacity m + EC_GROW_SIZE_AMOUNT) m
     else Ok m) = Ok m1 ∧
    wf m1 ∧ currentSize m1 = currentSize m ∧
    currentCapacity m1
      = (if decide (currentSize m = currentCapacity m)
         then currentCapacity m + EC_GROW_SIZE_AMOUNT else currentCapacity m) ∧
    forMatchingFunctions m1 = forMatchingFunctions m ∧
    (∀ i x, entities m1 !! i = Some x →
            entities m !! i = Some x ∨ (currentCapacity m ≤ i ∧ x = (false, i, 0%N))) ∧
    entities m1 !! currentSize m = Some e ∧
    id = currentSize m ∧
    m' = with_size (S (currentSize m))
           (with_entities (<[currentSize m := set_bool true e]> (entities m1)) m1).
Proof.
  intros Hwf Hadd. unfold addEntity in Hadd.
  ok_inv Hadd as m1 Hm1. ok_inv Hadd as e He. ok_inv Hadd as es Hes.
  apply vector_index_Ok in He. apply vector_assign_Ok in Hes as [_ ->].
  assert (wf m1 ∧ currentSize m1 = currentSize m ∧
          currentCapacity m1
            = (if decide (currentSize m = currentCapacity m)
               then currentCapacity m + EC_GROW_SIZE_AMOUNT else currentCapacity m) ∧
          forMatchingFunctions m1 = forMatchingFunctions m ∧
          (∀ i x, entities m1 !! i = Some x →
                  entities m !! i = Some x ∨ (currentCapacity m ≤ i ∧ x = (false, i, 0%N))))
    as (Hwf1 & Hsz1 & Hcap1 & Hfs1 & Hes1).
  { case_decide as Hfull.
    - destruct (resize_spec (currentCapacity m + EC_GROW_SIZE_AMOUNT) m Hwf)
        as (m2 & Hres & Hwf2 & Hsz2 & Hcap2 & Hfs2 & Hold & Hnew).
      assert (m2 = m1) as -> by congruence.
      split_and!; try done; [lia|].
      intros i x Hi. pose proof (lookup_lt_Some _ _ _ Hi) as Hlt.
      rewrite (slots_length _ _ (wf_slots _ Hwf2)) in Hlt.
      destruct (decide (i < currentCapacity m)) as [Hin|Hout].
      + left. by rewrite <- Hold.
      + right. rewrite Hnew in Hi by lia. split; [lia|congruence].
    - injection Hm1 as <-. split_and!; try done. by left. }
  injection Hadd as <- <-. rewrite Hsz1 in *. exists m1, e. split_and!; done.
Qed.

(** X10: in a reachable state addEntity returns; the capacity grows, by
    EC_GROW_SIZE_AMOUNT, exactly when the table is full; every record below
    currentSize and every component value already stored is unchanged, the
    component vectors being extended by default-constructed values only; the
    stored functions are kept. *)
Theorem addEntity_keeps_existing_entities m :
  Reachable m →
  ∃ m',
    addEntity default_value m = Ok (currentSize m, m') ∧
    currentSize m' = S (currentSize m) ∧
    currentCapacity m'
      = (if decide (currentSize m = currentCapacity m)
         then currentCapacity m + EC_GROW_SIZE_AMOUNT else currentCapacity m) ∧
    (∀ i, i < currentSize m → entities m' !! i = entities m !! i) ∧
    (∀ c, componentsStorage m' c
          = componentsStorage m c
            ++ replicate (currentCapacity m' - currentCapacity m) (default_value c)) ∧
    forMatchingFunctions m' = forMatchingFunctions m.
Proof.
  intros Hwf%reachable_wf.
  destruct (addEntity_spec m Hwf) as (m' & e0 & Hadd & _ & Hsz & _ & _ & Hold).
  exists m'. split; [done|].
  destruct (addEntity_inv m _ m' Hwf Hadd)
    as (m1 & e & Hm1 & Hwf1 & Hsz1 & Hcap1 & Hfs1 & _ & _ & _ & ->).
  unfold with_size, with_entities.
  cbn [entities componentsStorage currentSize currentCapacity forMatchingFunctions] in *.
  split_and!; try done.
  intros c. case_decide as Hfull.
  - by apply (resize_storage (currentCapacity m + EC_GROW_SIZE_AMOUNT) m).
  - injection Hm1 as <-. by rewrite Nat.sub_diag, app_nil_r.
Qed.

(** *** runs without cleanup *)

Lemma invalidEntity_false_lt id m :
  invalidEntity id m = Ok false →
  id < currentSize m ∧ ∃ e, entities m !! id = Some e ∧ get_bool e = true.
Proof.
  unfold invalidEntity. destruct (hasEntity id m) eqn:Hex; [|done]. simpl.
  intros Hinv. ok_inv Hinv as a Ha. injection Hinv as Hinv.
  apply negb_false_iff in Hinv as ->. by apply isAlive_true_inv.
Qed.

Lemma guarded_assignBit_inv entityID pos value m m' :
  (inv ← invalidEntity entityID m;
   if (inv : bool) then Ok m else assignBit entityID pos value m) = Ok m' →
  m' = m ∨
  ∃ e, entityID < currentSize m ∧ entities m !! entityID = Some e ∧
       get_bool e = true ∧
       m' = with_entities
              (<[entityID := set_Bitset (Bitset_set (get_Bitset e) pos value) e]>
                 (entities m)) m.
Proof.
  intros Hop. ok_inv Hop as inv Hinv. destruct inv.
  - left. by injection Hop.
  - right. apply invalidEntity_false_lt in Hinv as (Hlt & e & He & Hb).
    rewrite (assignBit_eq _ _ _ _ e) in Hop by done. injection Hop as <-. eauto 10.
Qed.

Lemma untouched_slots_update m i e e' :
  entities m !! i = Some e → get_size_t e' = get_size_t e →
  (currentSize m ≤ i → get_Bitset e' = 0%N) →
  untouched_slots m → untouched_slots (with_entities (<[i := e']> (entities m)) m).
Proof.
  intros Hi Hs Hb Hun j ej. unfold with_entities. cbn [entities currentSize].
  intros [(<- & <- & _)|[? Hj]]%list_lookup_insert_Some; [|by apply Hun].
  rewrite Hs. split; [by apply (Hun i e)|done].
Qed.

Lemma mutation_untouched_slots m m' :
  wf m → untouched_slots m →
  mutation construct default_value (Tag := Tag) m m' → untouched_slots m'.
Proof.
  intros Hwf Hun Hmut.
  destruct Hmut as [m id m' Hop|m index m' Hop|m c id args m' Hop|m c id m' Hop
                   |m t id m' Hop|m t id m' Hop|m s f w m' w' Hop|m s f
                   |m w m' w' Hop|m].
  - destruct (addEntity_inv m id m' Hwf Hop)
      as (m1 & e & _ & _ & Hsz1 & _ & _ & Hes1 & He & _ & ->).
    intros i x. unfold with_size, with_entities. cbn [entities currentSize].
    assert (∀ j y, entities m1 !! j = Some y →
              get_size_t y = j ∧ (currentSize m ≤ j → get_Bitset y = 0%N)) as Hun1.
    { intros j y [Hj|[Hge ->]]%Hes1; [by apply Hun|done]. }
    intros [(<- & <- & _)|[? Hi]]%list_lookup_insert_Some.
    + split; [by apply (Hun1 _ e)|lia].
    + destruct (Hun1 i x Hi) as [? Hbits]. split; [done|]. intros Hle. apply Hbits. lia.
  - unfold deleteEntity in Hop. ok_inv Hop as e He. apply vector_at_Ok in He.
    injection Hop as <-. apply (untouched_slots_update m index e); try done.
    intros Hle. by apply (Hun index e).
  - unfold addComponent in Hop. ok_inv Hop as inv Hinv. destruct inv.
    { by injection Hop as <-. }
    apply invalidEntity_false_lt in Hinv as (Hlt & e & He & Hb).
    rewrite (assignBit_eq _ _ _ _ e) in Hop by done. cbn [mbind result_bind] in Hop.
    ok_inv Hop as e1 He1. ok_inv Hop as v Hv. injection Hop as <-.
    intros i x. unfold with_storage. cbn [entities currentSize].
    apply (untouched_slots_update m id e); try done. lia.
  - apply guarded_assignBit_inv in Hop as [->|(e & Hlt & He & _ & ->)]; [done|].
    apply (untouched_slots_update m id e); try done. lia.
  - apply guarded_assignBit_inv in Hop as [->|(e & Hlt & He & _ & ->)]; [done|].
    apply (untouched_slots_update m id e); try done. lia.
  - apply guarded_assignBit_inv in Hop as [->|(e & Hlt & He & _ & ->)]; [done|].
    apply (untouched_slots_update m id e); try done. lia.
  - apply forMatchingSignature_loop_same_table in Hop as [He _ Hs _ _].
    unfold untouched_slots. by rewrite He, Hs.
  - done.
  - apply callForMatchingFunctions_loop_same_table in Hop as [He _ Hs _ _].
    unfold untouched_slots. by rewrite He, Hs.
  - done.
Qed.

Lemma mutation_reachable m m' :
  Reachable m → mutation construct default_value (Tag := Tag) m m' → Reachable m'.
Proof.
  intros Hr Hmut.
  destruct Hmut as [m id m' Hop|m index m' Hop|m c id args m' Hop|m c id m' Hop
                   |m t id m' Hop|m t id m' Hop|m s f w m' w' Hop|m s f
                   |m w m' w' Hop|m].
  - by eapply reach_addEntity.
  - by eapply reach_deleteEntity.
  - by eapply reach_addComponent.
  - by eapply reach_removeComponent.
  - by eapply reach_addTag.
  - by eapply reach_removeTag.
  - by eapply reach_forMatchingSignature.
  - by apply reach_addForMatchingFunction.
  - by eapply reach_callForMatchingFunctions.
  - by apply reach_clearForMatchingFunctions.
Qed.

Lemma reachable_without_cleanup_untouched m :
  reachable_without_cleanup construct default_value (Tag := Tag) m →
  Reachable m ∧ untouched_slots m.
Proof.
  intros (m0 & Hnew & Hrtc). revert m Hrtc. apply rtc_ind_r.
  - split; [by apply reach_new|].
    unfold Manager_new in Hnew.
    destruct (resize_spec EC_INIT_ENTITIES_SIZE _ Manager_fields_wf)
      as (m' & Hres & Hwf & Hsz & Hcap & _ & _ & Hfresh).
    assert (m' = m0) as -> by congruence.
    intros i e Hi. pose proof (lookup_lt_Some _ _ _ Hi) as Hlt.
    rewrite (slots_length _ _ (wf_slots _ Hwf)) in Hlt.
    rewrite Hfresh in Hi by (simpl; lia). injection Hi as <-.
    split; [reflexivity|intros _; reflexivity].
  - intros m1 m2 Hrtc Hstep [Hr Hun]. split; [by eapply mutation_reachable|].
    eapply mutation_untouched_slots; [by apply reachable_wf|done..].
Qed.

(** X11: as long as cleanup has not been called, every record carries its
    own index as dataSlot, and addEntity returns the previous currentSize as
    id of a record that is alive, has that id as dataSlot and has an empty
    membership bitset. *)
Theorem addEntity_without_cleanup_gives_own_index m :
  reachable_without_cleanup construct default_value (Tag := Tag) m →
  (∀ i e, getEntityInfo i m = Ok e → get_size_t e = i) ∧
  ∃ m', addEntity default_value m = Ok (currentSize m, m') ∧
        getEntityInfo (currentSize m) m' = Ok (true, currentSize m, 0%N).
Proof.
  intros [Hwf%reachable_wf Hun]%reachable_without_cleanup_untouched. split.
  { intros i e Hi%vector_at_Ok. by apply (Hun i e). }
  destruct (addEntity_spec m Hwf) as (m' & e & Hadd & _ & _ & He & Hslot & _).
  exists m'. split; [done|]. unfold getEntityInfo.
  rewrite (proj2 (vector_at_Ok _ _ (set_bool true e))) by done.
  case_decide as Hfull; [by subst e|].
  destruct (Hun _ e Hslot) as [Hs Hb]. unfold set_bool. by rewrite Hs, Hb.
Qed.


(** *** scans after a deletion or a removal *)

Lemma forMatchingSignature_spec_calls s function m w :
  wf m →
  forMatchingSignature s function m w = Ok (run_calls function (spec_calls s m) m w).
Proof.
  intros Hwf. unfold forMatchingSignature.
  rewrite forMatchingSignature_loop_spec; [done|done|]. simpl. apply (wf_size _ Hwf).
Qed.

Lemma spec_calls_elem s m i :
  i ∈ (spec_calls s m).*1 ↔
  i < currentSize m ∧
  ∃ e, entities m !! i = Some e ∧ get_bool e = true ∧
       N.land (generateBitset s) (get_Bitset e) = generateBitset s.
Proof.
  rewrite spec_calls_ids. unfold spec_matching_ids.
  rewrite list_elem_of_filter, elem_of_seq. unfold spec_selected, spec_matches.
  split.
  - intros [Hsel [_ Hlt]]. split; [lia|].
    destruct (entities m !! i) as [e|]; [|done].
    apply andb_true_iff in Hsel as [? ?%N.eqb_eq]. eauto.
  - intros [Hlt (e & He & Hb & Hland)]. split; [|lia].
    rewrite He, Hb. simpl. by apply N.eqb_eq.
Qed.

(** X12: after deleteEntity(id), and until cleanup, forMatchingSignature
    ignores the entity, for every signature and handler: the scan returns,
    never calls the handler with id, and calls it for exactly the other
    entities it called it for before the deletion. *)
Theorem forMatchingSignature_ignores_deleted_entity id m m' s function w :
  Reachable m → deleteEntity id m = Ok m' →
  forMatchingSignature s function m' w
    = Ok (run_calls function (spec_calls s m') m' w) ∧
  (id ∉ (spec_calls s m').*1) ∧
  (∀ i, i ∈ (spec_calls s m').*1 ↔ i ∈ (spec_calls s m).*1 ∧ i ≠ id).
Proof.
  intros Hwf%reachable_wf Hdel.
  pose proof (deleteEntity_wf _ _ _ Hwf Hdel) as Hwf'.
  unfold deleteEntity in Hdel. ok_inv Hdel as e He. apply vector_at_Ok in He.
  injection Hdel as <-.
  assert (∀ i, i ∈ (spec_calls s
                      (with_entities (<[id := set_bool false e]> (entities m)) m)).*1
               ↔ i ∈ (spec_calls s m).*1 ∧ i ≠ id) as Hiff.
  { intros i. rewrite !spec_calls_elem. unfold with_entities. cbn [entities currentSize].
    destruct (decide (i = id)) as [->|Hne].
    - rewrite list_lookup_insert_eq by (by eapply lookup_lt_Some).
      split; [|by intros [_ ?]]. by intros [_ (e' & [= <-] & Hb & _)].
    - rewrite list_lookup_insert_ne by done.
      split; [by intros ?|by intros [? _]]. }
  split_and!; [by apply forMatchingSignature_spec_calls| |done].
  intros [_ ?]%Hiff. done.
Qed.

(** X13: after removeComponent<K>(id), a forMatchingSignature whose
    signature requires K returns without calling the handler with id. *)
Theorem forMatchingSignature_excludes_removed_component c id m m' s function w :
  Reachable m → removeComponent c id m = Ok m' → inl c ∈ s →
  forMatchingSignature s function m' w
    = Ok (run_calls function (spec_calls s m') m' w) ∧
  (id ∉ (spec_calls s m').*1).
Proof.
  intros Hwf%reachable_wf Hrem Hc.
  pose proof (guarded_assignBit_wf _ _ _ _ _ Hwf Hrem) as Hwf'.
  split; [by apply forMatchingSignature_spec_calls|].
  intros (Hlt & e' & He' & Hb' & Hland)%spec_calls_elem.
  apply matches_superset in Hland as [Hbit _]. specialize (Hbit c Hc).
  unfold removeComponent in Hrem. ok_inv Hrem as inv Hinv. destruct inv.
  - injection Hrem as <-.
    assert (isAlive id m = Ok true) as Hal.
    { unfold isAlive, hasEntity. rewrite bool_decide_eq_true_2 by done.
      rewrite (proj2 (vector_at_Ok _ _ e')) by done. cbn [mbind result_bind].
      by rewrite Hb'. }
    apply invalidEntity_alive in Hal. congruence.
  - apply invalidEntity_false_lt in Hinv as (_ & e & He & _).
    destruct (assignBit_frame id (componentPos c) false m e He)
      as (m2 & e2 & Hset & He2 & Hfalse & _).
    assert (m2 = m') as -> by congruence.
    assert (e2 = e') as -> by congruence.
    unfold getComponentBit in Hbit. congruence.
Qed.

(** *** stored functions *)

Lemma callForMatchingFunctions_loop_returns (fs : list Closure) m w :
  wf m → ∃ m' w', callForMatchingFunctions_loop fs m w = Ok (m', w') ∧ same_table m m'.
Proof.
  revert m w. induction fs as [|f fs IH]; intros m w Hwf; cbn [callForMatchingFunctions_loop].
  { exists m, w. split; [done|apply same_table_refl]. }
  unfold Closure_call. rewrite Closure_loop_eq.
  rewrite forMatchingSignature_loop_spec by (pose proof (wf_size _ Hwf); simpl; lia || done).
  cbn [mbind result_bind].
  destruct (run_calls _ _ m w) as [m1 w1] eqn:Hrun.
  assert (same_table m m1) as Hsame.
  { eapply (forMatchingSignature_loop_same_table (currentSize m) 0
              (cl_signatureBitset f) (cl_helper f) (cl_function f) m w m1 w1).
    rewrite forMatchingSignature_loop_spec
      by (pose proof (wf_size _ Hwf); simpl; lia || done).
    by rewrite Hrun. }
  destruct (IH m1 w1 (same_table_wf _ _ Hsame Hwf)) as (m' & w' & Hloop & Hsame').
  exists m', w'. split; [done|]. by eapply same_table_trans.
Qed.

Lemma closure_calls_same_table (cl : Closure) m m' :
  same_table m m' → closure_calls cl m' = closure_calls cl m.
Proof. intros [He _ Hs _ _]. unfold closure_calls. by rewrite He, Hs. Qed.

(** Every stored closure is run on the calls the table at the start fixes. *)
Lemma callForMatchingFunctions_loop_calls (fs : list Closure) m0 m w :
  wf m0 → same_table m0 m →
  callForMatchingFunctions_loop fs m w
  = Ok (foldl (λ st cl, run_calls (cl_function cl) (closure_calls cl m0) st.1 st.2)
          (m, w) fs).
Proof.
  revert m w. induction fs as [|f fs IH]; intros m w Hwf0 Hsame;
    cbn [callForMatchingFunctions_loop foldl]; [done|].
  pose proof (same_table_wf _ _ Hsame Hwf0) as Hwf.
  unfold Closure_call. rewrite Closure_loop_eq.
  rewrite forMatchingSignature_loop_spec by (pose proof (wf_size _ Hwf); simpl; lia || done).
  cbn [mbind result_bind fst snd].
  change ((λ j, (j, spec_refs (cl_helper f) (entities m) j))
            <$> filter (λ j, spec_selected (cl_signatureBitset f) (entities m) j = true)
                  (seq 0 (currentSize m)))
    with (closure_calls f m).
  rewrite (closure_calls_same_table f m0 m Hsame).
  destruct (run_calls (cl_function f) (closure_calls f m0) m w) as [m1 w1] eqn:Hrun.
  cbn [fst snd]. apply IH; [done|].
  eapply same_table_trans; [done|].
  eapply (forMatchingSignature_loop_same_table (currentSize m) 0
            (cl_signatureBitset f) (cl_helper f) (cl_function f) m w m1 w1).
  rewrite forMatchingSignature_loop_spec
    by (pose proof (wf_size _ Hwf); simpl; lia || done).
  change ((λ j, (j, spec_refs (cl_helper f) (entities m) j))
            <$> filter (λ j, spec_selected (cl_signatureBitset f) (entities m) j = true)
                  (seq 0 (currentSize m)))
    with (closure_calls f m).
  by rewrite (closure_calls_same_table f m0 m Hsame), Hrun.
Qed.

(** X14: in a reachable state callForMatchingFunctions returns — no access
    is out of range — and runs the stored functions in the order they were
    stored, each on exactly the alive entities below currentSize whose
    membership contains the bitset stored with it, in increasing id order,
    with the references at their dataSlots; which entities are visited is
    fixed by the entity table at the start of the call, whatever the
    handlers write.  The entity table, the sizes, the stored functions and
    the length of every component vector are as before.  After
    clearForMatchingFunctions it calls nothing and changes nothing. *)
Theorem callForMatchingFunctions_returns m w :
  Reachable m →
  callForMatchingFunctions m w
    = Ok (foldl (λ st cl, run_calls (cl_function cl) (closure_calls cl m) st.1 st.2)
            (m, w) (forMatchingFunctions m)) ∧
  (∀ cl i, i ∈ (closure_calls cl m).*1 ↔
           i < currentSize m ∧
           ∃ e, entities m !! i = Some e ∧ get_bool e = true ∧
                N.land (cl_signatureBitset cl) (get_Bitset e) = cl_signatureBitset cl) ∧
  (∃ m' w', callForMatchingFunctions m w = Ok (m', w') ∧ same_table m m') ∧
  callForMatchingFunctions (clearForMatchingFunctions m) w
    = Ok (clearForMatchingFunctions m, w).
Proof.
  intros Hwf%reachable_wf. split_and!; [| | |done].
  - apply callForMatchingFunctions_loop_calls; [done|apply same_table_refl].
  - intros cl i. unfold closure_calls.
    rewrite <- list_fmap_compose, list_fmap_id. unfold spec_matching_ids.
    rewrite list_elem_of_filter, elem_of_seq. unfold spec_selected, spec_matches.
    split.
    + intros [Hsel [_ Hlt]]. split; [lia|].
      destruct (entities m !! i) as [e|]; [|done].
      apply andb_true_iff in Hsel as [? ?%N.eqb_eq]. eauto.
    + intros [Hlt (e & He & Hb & Hland)]. split; [|lia].
      rewrite He, Hb. simpl. by apply N.eqb_eq.
  - by apply callForMatchingFunctions_loop_returns.
Qed.

(** *** sizes *)

Lemma mutation_capacity m m' :
  wf m → mutation construct default_value (Tag := Tag) m m' →
  currentCapacity m ≤ currentCapacity m'.
Proof.
  intros Hwf Hmut.
  destruct Hmut as [m id m' Hop|m index m' Hop|m c id args m' Hop|m c id m' Hop
                   |m t id m' Hop|m t id m' Hop|m s f w m' w' Hop|m s f
                   |m w m' w' Hop|m].
  - destruct (addEntity_inv m id m' Hwf Hop)
      as (m1 & e & _ & _ & _ & Hcap1 & _ & _ & _ & _ & ->).
    unfold with_size, with_entities. cbn [currentCapacity]. rewrite Hcap1.
    case_decide; lia.
  - unfold deleteEntity in Hop. ok_inv Hop as e He. by injection Hop as <-.
  - unfold addComponent in Hop. ok_inv Hop as inv Hinv. destruct inv.
    { by injection Hop as <-. }
    ok_inv Hop as m1 Hm1. apply assignBit_wf in Hm1 as (_ & _ & _ & Hcap); [|done].
    ok_inv Hop as e1 He1. ok_inv Hop as v Hv. injection Hop as <-.
    unfold with_storage. cbn [currentCapacity]. lia.
  - apply guarded_assignBit_inv in Hop as [->|(e & _ & _ & _ & ->)]; done.
  - apply guarded_assignBit_inv in Hop as [->|(e & _ & _ & _ & ->)]; done.
  - apply guarded_assignBit_inv in Hop as [->|(e & _ & _ & _ & ->)]; done.
  - apply forMatchingSignature_loop_same_table in Hop as [_ Hc _ _ _]. lia.
  - done.
  - apply callForMatchingFunctions_loop_same_table in Hop as [_ Hc _ _ _]. lia.
  - done.
Qed.

(** X15: in every reachable state the entity vector and every component
    vector have exactly currentCapacity elements, currentSize is at most
    currentCapacity, and the capacity is at least EC_INIT_ENTITIES_SIZE: no
    operation shrinks the table. *)
Theorem vectors_are_sized_to_capacity m :
  Reachable m →
  length (entities m) = currentCapacity m ∧
  (∀ c, length (componentsStorage m c) = currentCapacity m) ∧
  currentSize m ≤ currentCapacity m ∧
  EC_INIT_ENTITIES_SIZE ≤ currentCapacity m.
Proof.
  intros Hr. pose proof (reachable_wf m Hr) as Hwf.
  split_and!; [apply (slots_length _ _ (wf_slots _ Hwf))|apply Hwf|apply Hwf|].
  clear Hwf.
  induction Hr as [m Hnew|m id m' Hr IH Hop|m index m' Hr IH Hop|m m' Hr IH Hop
                  |m c id args m' Hr IH Hop|m c id m' Hr IH Hop|m t id m' Hr IH Hop
                  |m t id m' Hr IH Hop|m s f w m' w' Hr IH Hop|m s f Hr IH
                  |m w m' w' Hr IH Hop|m Hr IH].
  - unfold Manager_new in Hnew.
    destruct (resize_spec EC_INIT_ENTITIES_SIZE _ Manager_fields_wf)
      as (m0 & Hres & _ & _ & Hcap & _).
    assert (m0 = m) as E by congruence. rewrite <- E, Hcap. apply Nat.le_max_r.
  - etrans; [exact IH|]. apply mutation_capacity; [by apply reachable_wf|].
    by eapply mut_addEntity.
  - etrans; [exact IH|]. apply mutation_capacity; [by apply reachable_wf|].
    by eapply mut_deleteEntity.
  - destruct (cleanup_spec m (reachable_wf m Hr)) as (m2 & Hcl & _ & _ & Hcap & _).
    assert (m2 = m') as E by congruence. by rewrite <- E, Hcap.
  - etrans; [exact IH|]. apply mutation_capacity; [by apply reachable_wf|].
    by eapply mut_addComponent.
  - etrans; [exact IH|]. apply mutation_capacity; [by apply reachable_wf|].
    by eapply mut_removeComponent.
  - etrans; [exact IH|]. apply mutation_capacity; [by apply reachable_wf|].
    by eapply mut_addTag.
  - etrans; [exact IH|]. apply mutation_capacity; [by apply reachable_wf|].
    by eapply mut_removeTag.
  - etrans; [exact IH|]. apply mutation_capacity; [by apply reachable_wf|].
    by eapply mut_forMatchingSignature.
  - exact IH.
  - etrans; [exact IH|]. apply mutation_capacity; [by apply reachable_wf|].
    by eapply mut_callForMatchingFunctions.
  - exact IH.
Qed.

(** ** addEntity *)

(** *** membership of the slots above currentSize *)

Lemma empty_from_update n es i e e' :
  es !! i = Some e → (n ≤ i → get_Bitset e' = 0%N) →
  empty_from n es → empty_from n (<[i := e']> es).
Proof.
  intros Hi Hb Hem j ej [(<- & <- & _)|[? Hj]]%list_lookup_insert_Some Hle;
    [by apply Hb|by eapply Hem].
Qed.

Lemma empty_from_mono n n' es : n ≤ n' → empty_from n es → empty_from n' es.
Proof. intros Hle Hem i e Hi Hge. eapply Hem; [done|lia]. Qed.

(** The inner loop of [cleanup] resets every record it steps over: on an
    early return all records above index 0 are reset, index 0 is not. *)
Lemma cleanup_inner_empty_from es rhs out :
  empty_from (S rhs) es → cleanup_inner es rhs = Ok out →
  match out with
  | Returned es' => empty_from 1 es'
  | Continue es' rhs' => empty_from (S rhs') es'
  end.
Proof.
  revert es. induction rhs as [|rhs IH]; intros es Hem; rewrite cleanup_inner_eq;
    intros Hin; ok_inv Hin as e He; apply vector_index_Ok in He;
    destruct (get_bool e) eqn:Hb; try (by injection Hin as <-).
  ok_inv Hin as es1 Hes1. apply vector_assign_Ok in Hes1 as [_ ->].
  apply (IH _) in Hin; [done|].
  intros i ei [(<- & <- & _)|[? Hi]]%list_lookup_insert_Some Hle; [done|].
  eapply Hem; [done|lia].
Qed.

Lemma cleanup_outer_empty_from fuel es lhs rhs es' n :
  empty_from (S rhs) es → cleanup_outer fuel es lhs rhs = Ok (es', n) →
  empty_from (1 `max` n) es'.
Proof.
  revert es lhs rhs. induction fuel as [|fuel IH]; intros es lhs rhs Hem; simpl;
    (case_decide as Hlr;
     [|intros [= <- <-]; eapply empty_from_mono; [|done]; lia]); [done|].
  intros Hout. ok_inv Hout as inner Hin.
  apply (cleanup_inner_empty_from _ _ _ Hem) in Hin.
  destruct inner as [es1|es1 rhs1]; [by injection Hout as <- <-|].
  case_decide as Hmeet.
  { injection Hout as <- <-. eapply empty_from_mono; [|done]. lia. }
  ok_inv Hout as el Hel. apply vector_index_Ok in Hel.
  destruct (get_bool el) eqn:Hb; simpl in Hout; [by eapply IH|].
  ok_inv Hout as er Her. apply vector_at_Ok in Her.
  ok_inv Hout as e He. ok_inv Hout as es3 Hes3.
  apply vector_assign_Ok in Hes3 as [_ ->].
  eapply IH; [|done]. replace (S (rhs1 - 1)) with rhs1 by lia.
  intros i ei [(<- & <- & _)|[? Hi]]%list_lookup_insert_Some Hle; [done|].
  rewrite !list_lookup_insert_ne in Hi by lia. eapply Hin; [done|lia].
Qed.

Lemma cleanup_empty_from m m' :
  empty_from (1 `max` currentSize m) (entities m) → cleanup m = Ok m' →
  empty_from (1 `max` currentSize m') (entities m').
Proof.
  intros Hem. unfold cleanup. case_decide as Hempty.
  { by intros [= <-]. }
  intros Hcl. ok_inv Hcl as r Hr. destruct r as [es' n]. injection Hcl as <-.
  simpl. eapply cleanup_outer_empty_from; [|done].
  eapply empty_from_mono; [|done]. lia.
Qed.

Lemma mutation_empty_from m m' :
  wf m → empty_from (1 `max` currentSize m) (entities m) →
  mutation construct default_value (Tag := Tag) m m' →
  empty_from (1 `max` currentSize m') (entities m').
Proof.
  intros Hwf Hem Hmut.
  destruct Hmut as [m id m' Hop|m index m' Hop|m c id args m' Hop|m c id m' Hop
                   |m t id m' Hop|m t id m' Hop|m s f w m' w' Hop|m s f
                   |m w m' w' Hop|m].
  - destruct (addEntity_inv m id m' Hwf Hop)
      as (m1 & e & _ & _ & _ & _ & _ & Hes1 & He & _ & ->).
    unfold with_size, with_entities. cbn [entities currentSize].
    intros i x [(<- & _ & _)|[? Hi]]%list_lookup_insert_Some Hle; [lia|].
    apply Hes1 in Hi as [Hi|[_ ->]]; [|done]. eapply Hem; [done|lia].
  - unfold deleteEntity in Hop. ok_inv Hop as e He. apply vector_at_Ok in He.
    injection Hop as <-. unfold with_entities. cbn [entities currentSize].
    apply (empty_from_update _ _ _ e); [done| |done].
    intros Hle. by apply (Hem index e).
  - unfold addComponent in Hop. ok_inv Hop as inv Hinv. destruct inv.
    { by injection Hop as <-. }
    apply invalidEntity_false_lt in Hinv as (Hlt & e & He & Hb).
    rewrite (assignBit_eq _ _ _ _ e) in Hop by done. cbn [mbind result_bind] in Hop.
    ok_inv Hop as e1 He1. ok_inv Hop as v Hv. injection Hop as <-.
    unfold with_storage, with_entities. cbn [entities currentSize].
    apply (empty_from_update _ _ _ e); [done|lia|done].
  - apply guarded_assignBit_inv in Hop as [->|(e & Hlt & He & _ & ->)]; [done|].
    unfold with_entities. cbn [entities currentSize].
    apply (empty_from_update _ _ _ e); [done|lia|done].
  - apply guarded_assignBit_inv in Hop as [->|(e & Hlt & He & _ & ->)]; [done|].
    unfold with_entities. cbn [entities currentSize].
    apply (empty_from_update _ _ _ e); [done|lia|done].
  - apply guarded_assignBit_inv in Hop as [->|(e & Hlt & He & _ & ->)]; [done|].
    unfold with_entities. cbn [entities currentSize].
    apply (empty_from_update _ _ _ e); [done|lia|done].
  - apply forMatchingSignature_loop_same_table in Hop as [He _ Hs _ _].
    by rewrite He, Hs.
  - done.
  - apply callForMatchingFunctions_loop_same_table in Hop as [He _ Hs _ _].
    by rewrite He, Hs.
  - done.
Qed.

(** In every reachable state the records at or above currentSize have an
    empty membership bitset, index 0 apart. *)
Lemma reachable_empty_from m :
  Reachable m → empty_from (1 `max` currentSize m) (entities m).
Proof.
  induction 1 as [m Hnew|m id m' Hr IH Hop|m index m' Hr IH Hop|m m' Hr IH Hop
                 |m c id args m' Hr IH Hop|m c id m' Hr IH Hop|m t id m' Hr IH Hop
                 |m t id m' Hr IH Hop|m s f w m' w' Hr IH Hop|m s f Hr IH
                 |m w m' w' Hr IH Hop|m Hr IH].
  - unfold Manager_new in Hnew.
    destruct (resize_spec EC_INIT_ENTITIES_SIZE _ Manager_fields_wf)
      as (m0 & Hres & Hwf & _ & _ & _ & _ & Hfresh).
    assert (m0 = m) as E by congruence. rewrite <- E.
    intros i e Hi _. pose proof (lookup_lt_Some _ _ _ Hi) as Hlt.
    rewrite (slots_length _ _ (wf_slots _ Hwf)) in Hlt.
    rewrite Hfresh in Hi by (simpl; lia). injection Hi as <-. reflexivity.
  - apply (mutation_empty_from m); [by apply reachable_wf|done|].
    by eapply mut_addEntity.
  - apply (mutation_empty_from m); [by apply reachable_wf|done|].
    by eapply mut_deleteEntity.
  - by eapply cleanup_empty_from.
  - apply (mutation_empty_from m); [by apply reachable_wf|done|].
    by eapply mut_addComponent.
  - apply (mutation_empty_from m); [by apply reachable_wf|done|].
    by eapply mut_removeComponent.
  - apply (mutation_empty_from m); [by apply reachable_wf|done|].
    by eapply mut_addTag.
  - apply (mutation_empty_from m); [by apply reachable_wf|done|].
    by eapply mut_removeTag.
  - apply (mutation_empty_from m); [by apply reachable_wf|done|].
    by eapply mut_forMatchingSignature.
  - exact IH.
  - apply (mutation_empty_from m); [by apply reachable_wf|done|].
    by eapply mut_callForMatchingFunctions.
  - exact IH.
Qed.

(** C3 (amended): for every reachable table state, createEntity
    ([addEntity]) returns the previous currentSize as id; immediately
    afterwards exists(id) ([hasEntity]) and isAlive(id) are both true and
    the returned id is the record's table position.  The record's membership
    bitset is empty whenever the returned id is above 0.  The record keeps
    the dataSlot the slot already carried: it lies in [0, currentCapacity)
    and no other record of the table has it.  When the slot comes fresh from
    growth, the dataSlot is the slot's own index and the membership bitset
    is empty. *)
Theorem addEntity_revives_next_slot m :
  Reachable m →
  ∃ m' e,
    addEntity default_value m = Ok (currentSize m, m') ∧
    hasEntity (currentSize m) m' = true ∧
    isAlive (currentSize m) m' = Ok true ∧
    getEntityInfo (currentSize m) m' = Ok e ∧
    get_size_t e < currentCapacity m' ∧
    (∀ j ej, getEntityInfo j m' = Ok ej → get_size_t ej = get_size_t e →
             j = currentSize m) ∧
    (currentSize m < currentCapacity m →
       ∃ e0, getEntityInfo (currentSize m) m = Ok e0 ∧ get_size_t e = get_size_t e0) ∧
    (currentSize m = currentCapacity m →
       get_size_t e = currentSize m ∧ get_Bitset e = 0%N) ∧
    (0 < currentSize m → get_Bitset e = 0%N).
Proof.
  intros Hr. pose proof (reachable_empty_from m Hr) as Hem.
  pose proof (reachable_wf m Hr) as Hwf.
  destruct (addEntity_spec m Hwf) as (m' & e0 & Hadd & Hwf' & Hsz & He & Hslot & _).
  exists m', (set_bool true e0). unfold getEntityInfo, isAlive, hasEntity.
  rewrite Hsz, bool_decide_eq_true_2 by lia.
  rewrite (proj2 (vector_at_Ok _ _ (set_bool true e0))) by done.
  split_and!; try done.
  - by eapply (slots_range _ _ (wf_slots _ Hwf')).
  - intros j ej Hj%vector_at_Ok Heq.
    by eapply (slots_inj _ _ (wf_slots _ Hwf')).
  - intros Hlt. rewrite decide_False in Hslot by lia. exists e0.
    by rewrite (proj2 (vector_at_Ok _ _ e0)).
  - intros Hfull. rewrite decide_True in Hslot by done. by subst e0.
  - intros Hpos. change (get_Bitset e0 = 0%N). case_decide as Hfull; [by subst e0|].
    eapply Hem; [done|lia].
Qed.

End Facts.

(** ** ContainsAll *)

Lemma Contains_elem_of {A} `{EqDecision A} (x : A) (l : list A) :
  Contains x l = true ↔ x ∈ l.
Proof.
  induction l as [|y l IH]; simpl.
  - split; [done|by intros ?%elem_of_nil].
  - case_decide as Heq.
    + subst. split; [by left|done].
    + rewrite IH. split; [by right|]. by intros [?|?]%elem_of_cons.
Qed.

Lemma ContainsAllHelper_spec {A} `{EqDecision A} (a b : list A) :
  ContainsAllHelper a b = true ↔ ∀ x, x ∈ a → x ∈ b.
Proof.
  induction a as [|x a IH]; simpl.
  - split; [by intros _ x ?%elem_of_nil|done].
  - destruct (Contains x b) eqn:Hx.
    + apply Contains_elem_of in Hx. rewrite IH. split.
      * intros Ha y [->|?]%elem_of_cons; auto.
      * intros Ha y Hy. apply Ha. by right.
    + split; [done|]. intros Ha.
      assert (Contains x b = true) by (apply Contains_elem_of, Ha; by left).
      congruence.
Qed.

(** X16: [ContainsAll<A, B>] is true exactly when every type of the list A
    occurs in the list B, whatever the order and the repetitions; so the
    empty list is contained in every list, every list contains itself, and
    containment is transitive. *)
Theorem ContainsAll_decides_inclusion {A} `{EqDecision A} (a b : list A) :
  (ContainsAll a b = true ↔ ∀ x, x ∈ a → x ∈ b) ∧
  ContainsAll [] b = true ∧
  ContainsAll a a = true ∧
  (∀ c, ContainsAll a b = true → ContainsAll b c = true → ContainsAll a c = true).
Proof.
  unfold ContainsAll. split_and!.
  - apply ContainsAllHelper_spec.
  - done.
  - by apply ContainsAllHelper_spec.
  - intros c. rewrite !ContainsAllHelper_spec. auto.
Qed.

(** The checks of [TEST(Meta, ContainsAll)] in src/test/MetaTest.cpp. *)
Example MetaTest_ContainsAll :
  ContainsAll [C1; C3] [C0; C1; C2; C3] = true ∧
  ContainsAll [C0; C1; C2; C3] [C1; C3] = false ∧
  ContainsAll [C0; C1; C2; C3] [C0; C1; C2; C3] = true.
Proof. done. Qed.

(** ** The claims on the schema of the tests *)

Local Abbreviation test_reachable :=
  (reachable (Tag := TestTag) test_construct test_default (W := list (nat * list Ref))).

Lemma fresh_reachable : test_reachable fresh.
Proof. apply reach_new. vm_compute. reflexivity. Qed.

Lemma one_reachable : test_reachable one.
Proof.
  apply (reach_addEntity _ _ fresh 0); [apply fresh_reachable|].
  vm_compute. reflexivity.
Qed.

Lemma three_reachable : test_reachable three.
Proof.
  apply (reach_addEntity _ _ (run (test_addEntity one)) 2).
  - apply (reach_addEntity _ _ one 1); [apply one_reachable|].
    vm_compute. reflexivity.
  - vm_compute. reflexivity.
Qed.

Lemma one_dead_reachable : test_reachable one_dead.
Proof.
  apply (reach_deleteEntity _ _ one 0); [apply one_reachable|].
  vm_compute. reflexivity.
Qed.

Lemma two_dead_reachable : test_reachable two_dead.
Proof.
  apply (reach_deleteEntity _ _ (run (deleteEntity 0 three)) 1).
  - apply (reach_deleteEntity _ _ three 0); [apply three_reachable|].
    vm_compute. reflexivity.
  - vm_compute. reflexivity.
Qed.

Lemma compacted_reachable : test_reachable compacted.
Proof.
  apply (reach_cleanup _ _ (run (deleteEntity 0 three))).
  - apply (reach_deleteEntity _ _ three 0); [apply three_reachable|].
    vm_compute. reflexivity.
  - vm_compute. reflexivity.
Qed.

Lemma populated_reachable : test_reachable populated.
Proof.
  apply (reach_deleteEntity _ _ tagged 1); [|vm_compute; reflexivity].
  apply (reach_addTag _ _ with_components T0 2); [|vm_compute; reflexivity].
  apply (reach_addComponent _ _ with_component C0 2 7); [|vm_compute; reflexivity].
  apply (reach_addComponent _ _ three C0 0 5); [|vm_compute; reflexivity].
  apply three_reachable.
Qed.

(** *** cleanup on dead, dead, alive *)

(** C1 (the code at a failing input): compact() ([cleanup]) is to leave
    exactly the entities alive before the call at the indices
    [0, currentSize).  On the reachable table dead, dead, alive — one entity
    alive — it returns with currentSize 2 and a dead record at index 1. *)
Theorem cleanup_leaves_dead_record_below_currentSize :
  test_reachable two_dead ∧
  currentSize two_dead = 3 ∧
  isAlive 0 two_dead = Ok false ∧ isAlive 1 two_dead = Ok false ∧
  isAlive 2 two_dead = Ok true ∧
  cleanup two_dead = Ok two_dead_cleaned ∧
  currentSize two_dead_cleaned = 2 ∧
  getEntityInfo 0 two_dead_cleaned = Ok (true, 2, 0%N) ∧
  hasEntity 1 two_dead_cleaned = true ∧
  getEntityInfo 1 two_dead_cleaned = Ok (false, 1, 0%N).
Proof. split; [apply two_dead_reachable|]. vm_compute. repeat split. Qed.

(** The shortest failing input: the only entity is dead, and stays. *)
Lemma cleanup_keeps_single_dead_entity :
  ∃ m, cleanup one_dead = Ok m ∧ currentSize m = 1 ∧ isAlive 0 m = Ok false.
Proof. eexists. vm_compute. repeat split. Qed.

(** C8 (the code at a failing input): compact() ([cleanup]) is to be
    idempotent.  On the reachable table dead, dead, alive the first call
    leaves currentSize 2, and a second call, with no deletion in between,
    changes currentSize to 1. *)
Theorem cleanup_twice_differs_from_once :
  test_reachable two_dead ∧
  cleanup two_dead = Ok two_dead_cleaned ∧
  currentSize two_dead_cleaned = 2 ∧
  ∃ m, cleanup two_dead_cleaned = Ok m ∧ currentSize m = 1.
Proof.
  split; [apply two_dead_reachable|]. split_and!; [by vm_compute..|].
  eexists. vm_compute. repeat split.
Qed.

(** *** Counterexamples to the claims as stated *)

(** C3 as stated fails: after deleting entity 0 of three and compacting, the
    next entity gets id 2 and the dataSlot 0 the slot carries. *)
Lemma addEntity_dataSlot_is_not_own_index :
  test_reachable compacted ∧
  ∃ m', addEntity test_default compacted = Ok (2, m') ∧
        getEntityInfo 2 m' = Ok (true, 0, 0%N) ∧
        get_size_t (true, 0, 0%N) ≠ 2.
Proof.
  split; [apply compacted_reachable|]. eexists. split_and!.
  - vm_compute. reflexivity.
  - vm_compute. reflexivity.
  - vm_compute. lia.
Qed.

(** The membership of a reused slot: [cleanup] returns early at index 0
    without resetting the bitset there, and the next entity inherits it. *)
Example addEntity_after_cleanup_keeps_membership :
  currentSize all_dead_cleaned = 0 ∧
  ∃ m', addEntity test_default all_dead_cleaned = Ok (0, m') ∧
        hasComponent C1 0 m' = Ok true.
Proof. split; [by vm_compute|]. eexists. split; by vm_compute. Qed.

(** C5 as stated fails: on a fresh manager the id 256 refers to no entity,
    and markDeleted ([deleteEntity]) signals out-of-range. *)
Lemma deleteEntity_beyond_capacity_fails :
  test_reachable fresh ∧ hasEntity 256 fresh = false ∧
  isAlive 256 fresh = Ok false ∧
  deleteEntity 256 fresh = Fail OutOfRange.
Proof. split; [apply fresh_reachable|]. by vm_compute. Qed.

(** C6 as stated fails: on a fresh manager exists(0) is false, and the reads
    return the boolean false. *)
Lemma membership_read_of_missing_entity_returns :
  test_reachable fresh ∧ hasEntity 0 fresh = false ∧
  hasComponent C0 0 fresh = Ok false ∧ hasTag T0 0 fresh = Ok false.
Proof. split; [apply fresh_reachable|]. by vm_compute. Qed.

(** C9 as stated fails: entity 0 is tombstoned, addComponent is ignored, the
    read yields the default value and hasComponent is false. *)
Lemma addComponent_on_dead_entity_is_ignored :
  test_reachable one_dead ∧ hasEntity 0 one_dead = true ∧
  addComponent test_construct C0 0 7 one_dead = Ok one_dead ∧
  getEntityData C0 0 one_dead = Ok (C0, 0) ∧
  load (componentsStorage one_dead) (C0, 0) = Some 0 ∧
  test_construct C0 7 ≠ 0 ∧
  hasComponent C0 0 one_dead = Ok false.
Proof.
  split; [apply one_dead_reachable|].
  split_and!; by vm_compute.
Qed.

(** *** The scans at work *)

Example spec_calls_component :
  spec_calls sig_C0 populated = [(0, [(C0, 0)]); (2, [(C0, 2)])].
Proof. by vm_compute. Qed.

Example forMatchingSignature_component_and_tag :
  (r ← forMatchingSignature sig_C0_T0 log_handler populated []; Ok r.2)
  = Ok [(2, [(C0, 2)])].
Proof. by vm_compute. Qed.

(** A signature requiring a tag and no component: the handler gets the id only. *)
Example forMatchingSignature_tag_only :
  (r ← forMatchingSignature sig_T0 log_handler populated []; Ok r.2)
  = Ok [(2, [])].
Proof. by vm_compute. Qed.

(** The empty signature matches every alive entity. *)
Example forMatchingSignature_empty_signature :
  (r ← forMatchingSignature sig_empty log_handler populated []; Ok r.2)
  = Ok [(0, []); (2, [])].
Proof. by vm_compute. Qed.

(** Two registrations: the first increments every [C0], the second logs the
    entities tagged [T0]; the components read afterwards are incremented. *)
Example callForMatchingFunctions_in_order :
  (r ← callForMatchingFunctions
         (register_all [(sig_C0, bump_handler); (sig_C0_T0, log_handler)]
            populated) [];
   Ok (r.2, load (componentsStorage r.1) (C0, 0), load (componentsStorage r.1) (C0, 2)))
  = Ok ([(2, [(C0, 2)])], Some 6, Some 8).
Proof. by vm_compute. Qed.

(** *** The theorems at concrete inputs *)

Lemma forMatchingSignature_invokes_matching_witness :
  test_reachable populated ∧
  forMatchingSignature sig_C0_T0 log_handler populated []
    = Ok (run_calls log_handler (spec_calls sig_C0_T0 populated) populated []).
Proof.
  split; [exact populated_reachable|].
  exact (proj1 (forMatchingSignature_invokes_matching test_construct test_default
                  sig_C0_T0 log_handler populated [] populated_reachable)).
Defined.

Lemma addEntity_revives_next_slot_witness :
  test_reachable compacted ∧
  ∃ m' e, addEntity test_default compacted = Ok (currentSize compacted, m') ∧
          hasEntity (currentSize compacted) m' = true ∧
          isAlive (currentSize compacted) m' = Ok true ∧
          getEntityInfo (currentSize compacted) m' = Ok e ∧
          get_size_t e < currentCapacity m' ∧
          get_Bitset e = 0%N.
Proof.
  split; [exact compacted_reachable|].
  assert (0 < currentSize compacted) as Hpos by (vm_compute; apply Nat.lt_0_succ).
  destruct (addEntity_revives_next_slot test_construct test_default compacted
              compacted_reachable)
    as (m' & e & H1 & H2 & H3 & H4 & H5 & _ & _ & _ & H9).
  exists m', e. exact (conj H1 (conj H2 (conj H3 (conj H4 (conj H5 (H9 Hpos)))))).
Defined.

Lemma live_dataSlots_distinct_in_range_witness :
  test_reachable compacted ∧
  ∀ i j ei ej, isAlive i compacted = Ok true → isAlive j compacted = Ok true →
               getEntityInfo i compacted = Ok ei → getEntityInfo j compacted = Ok ej →
               get_size_t ei = get_size_t ej → i = j.
Proof.
  split; [exact compacted_reachable|].
  exact (proj2 (live_dataSlots_distinct_in_range test_construct test_default compacted
                  compacted_reachable)).
Defined.

Lemma invalid_entity_calls_are_ignored_witness :
  test_reachable one_dead ∧ isAlive 0 one_dead = Ok false ∧
  (∀ c args, addComponent test_construct c 0 args one_dead = Ok one_dead) ∧
  deleteEntity 0 one_dead = Ok one_dead.
Proof.
  assert (isAlive 0 one_dead = Ok false) as Hdead by (vm_compute; reflexivity).
  split; [exact one_dead_reachable|]. split; [exact Hdead|].
  destruct (invalid_entity_calls_are_ignored test_construct test_default 0 one_dead
              one_dead_reachable Hdead) as (Hadd & _ & _ & _ & Hdel & _).
  split; [exact Hadd|]. apply Hdel. vm_compute. lia.
Defined.

Lemma membership_reads_fail_beyond_capacity_witness :
  test_reachable fresh ∧
  hasComponent C0 (currentCapacity fresh) fresh = Fail OutOfRange.
Proof.
  split; [exact fresh_reachable|].
  destruct (membership_reads_fail_beyond_capacity (Tag := TestTag) test_construct
              test_default (currentCapacity fresh) fresh fresh_reachable) as [Hfail _].
  exact (proj1 (Hfail (le_n _)) C0).
Defined.

Lemma removeComponent_clears_only_bit_witness :
  hasEntity 0 with_component = true ∧ isAlive 0 with_component = Ok true ∧
  ∃ m' e e', removeComponent C0 0 with_component = Ok m' ∧
             entities with_component !! 0 = Some e ∧ entities m' !! 0 = Some e' ∧
             getComponentBit (get_Bitset e') C0 = false ∧
             componentsStorage m' = componentsStorage with_component.
Proof.
  assert (hasEntity 0 with_component = true) as Hex by (vm_compute; reflexivity).
  assert (isAlive 0 with_component = Ok true) as Hal by (vm_compute; reflexivity).
  split; [exact Hex|]. split; [exact Hal|].
  destruct (removeComponent_clears_only_bit (Tag := TestTag) C0 0 with_component Hex Hal)
    as (m' & e & e' & H1 & H2 & H3 & H4 & H5 & _).
  exists m', e, e'. exact (conj H1 (conj H2 (conj H3 (conj H4 H5)))).
Defined.

Lemma addComponent_round_trip_witness :
  test_reachable one ∧ isAlive 0 one = Ok true ∧
  ∃ m' ref, addComponent test_construct C0 0 7 one = Ok m' ∧
            getEntityData C0 0 m' = Ok ref ∧
            load (componentsStorage m') ref = Some (test_construct C0 7) ∧
            hasComponent C0 0 m' = Ok true.
Proof.
  assert (isAlive 0 one = Ok true) as Hal by (vm_compute; reflexivity).
  split; [exact one_reachable|]. split; [exact Hal|].
  exact (addComponent_round_trip (Tag := TestTag) test_construct test_default C0 0 7 one
           one_reachable Hal).
Defined.

(** *** The further properties at concrete inputs *)

Lemma with_component_reachable : test_reachable with_component.
Proof.
  apply (reach_addComponent _ _ three C0 0 5); [apply three_reachable|].
  vm_compute. reflexivity.
Qed.

Lemma tagged_reachable : test_reachable tagged.
Proof.
  apply (reach_addTag _ _ with_components T0 2); [|vm_compute; reflexivity].
  apply (reach_addComponent _ _ with_component C0 2 7); [|vm_compute; reflexivity].
  apply with_component_reachable.
Qed.

Lemma three_reachable_without_cleanup :
  reachable_without_cleanup (Tag := TestTag) test_construct test_default three.
Proof.
  exists fresh. split; [vm_compute; reflexivity|].
  apply (rtc_l _ _ one); [apply (mut_addEntity _ _ _ 0); vm_compute; reflexivity|].
  apply (rtc_l _ _ (run (test_addEntity one)));
    [apply (mut_addEntity _ _ _ 1); vm_compute; reflexivity|].
  apply rtc_once. apply (mut_addEntity _ _ _ 2). vm_compute. reflexivity.
Qed.

Lemma cleanup_keeps_alive_records_witness :
  test_reachable two_dead ∧
  ∃ m', cleanup two_dead = Ok m' ∧
        alive_records (entities m') ≡ₚ alive_records (entities two_dead).
Proof.
  split; [exact two_dead_reachable|].
  destruct (cleanup_keeps_alive_records test_construct test_default two_dead
              two_dead_reachable) as (m' & H1 & H2 & _).
  exists m'. exact (conj H1 H2).
Defined.

Lemma cleanup_dead_only_at_last_position_witness :
  cleanup two_dead = Ok two_dead_cleaned ∧
  ∀ i e, S i < currentSize two_dead_cleaned →
         entities two_dead_cleaned !! i = Some e → get_bool e = true.
Proof.
  assert (cleanup two_dead = Ok two_dead_cleaned) as Hcl by (vm_compute; reflexivity).
  exact (conj Hcl (cleanup_dead_only_at_last_position two_dead two_dead_cleaned Hcl)).
Defined.

Lemma three_all_alive :
  ∀ i, i < currentSize three → ∃ e, entities three !! i = Some e ∧ get_bool e = true.
Proof.
  assert (currentSize three = 3) as -> by (vm_compute; reflexivity).
  intros [|[|[|i]]] Hi.
  - exists (true, 0, 0%N). split; vm_compute; reflexivity.
  - exists (true, 1, 0%N). split; vm_compute; reflexivity.
  - exists (true, 2, 0%N). split; vm_compute; reflexivity.
  - exfalso. do 3 apply Nat.succ_lt_mono in Hi. exact (Nat.nlt_0_r _ Hi).
Qed.

Lemma cleanup_without_dead_entities_is_identity_witness :
  (∀ i, i < currentSize three →
        ∃ e, entities three !! i = Some e ∧ get_bool e = true) ∧
  cleanup three = Ok three.
Proof.
  exact (conj three_all_alive
              (cleanup_without_dead_entities_is_identity three three_all_alive)).
Defined.

Lemma deleteEntity_tombstones_witness :
  test_reachable three ∧ hasEntity 1 three = true ∧
  ∃ m' e, deleteEntity 1 three = Ok m' ∧ getEntityInfo 1 three = Ok e ∧
          isAlive 1 m' = Ok false ∧ hasEntity 1 m' = true.
Proof.
  assert (hasEntity 1 three = true) as Hex by (vm_compute; reflexivity).
  split; [exact three_reachable|]. split; [exact Hex|].
  destruct (deleteEntity_tombstones (Tag := TestTag) test_construct test_default 1 three
              three_reachable Hex) as (m' & e & H1 & H2 & _ & H4 & H5 & _).
  exists m', e. exact (conj H1 (conj H2 (conj H4 H5))).
Defined.

Lemma isAlive_never_fails_witness :
  test_reachable fresh ∧ ∃ b, isAlive 300 fresh = Ok b.
Proof.
  split; [exact fresh_reachable|].
  destruct (isAlive_never_fails (Tag := TestTag) test_construct test_default 300 fresh
              fresh_reachable) as (b & Hb & _).
  exists b. exact Hb.
Defined.

Lemma addTag_removeTag_change_only_that_tag_witness :
  isAlive 2 three = Ok true ∧
  ∃ e, entities three !! 2 = Some e ∧
       ∃ m' e', addTag T0 2 three = Ok m' ∧ hasTag T0 2 m' = Ok true ∧
                entities m' !! 2 = Some e' ∧ get_size_t e' = get_size_t e.
Proof.
  assert (isAlive 2 three = Ok true) as Hal by (vm_compute; reflexivity).
  split; [exact Hal|].
  destruct (addTag_removeTag_change_only_that_tag T0 2 three Hal) as (e & He & Hop).
  exists e. split; [exact He|].
  destruct (Hop true) as (m' & e' & H1 & H2 & H3 & _ & H5 & _).
  exists m', e'. exact (conj H1 (conj H2 (conj H3 H5))).
Defined.

Lemma addComponent_writes_one_cell_witness :
  test_reachable three ∧ isAlive 0 three = Ok true ∧
  ∃ m' e e', addComponent test_construct C0 0 5 three = Ok m' ∧
             entities three !! 0 = Some e ∧ entities m' !! 0 = Some e' ∧
             ∀ j, j ≠ 0 → entities m' !! j = entities three !! j.
Proof.
  assert (isAlive 0 three = Ok true) as Hal by (vm_compute; reflexivity).
  split; [exact three_reachable|]. split; [exact Hal|].
  destruct (addComponent_writes_one_cell (Tag := TestTag) test_construct test_default
              C0 0 5 three three_reachable Hal)
    as (m' & e & e' & H1 & H2 & H3 & _ & _ & _ & H7 & _).
  exists m', e, e'. exact (conj H1 (conj H2 (conj H3 H7))).
Defined.

Lemma removeComponent_leaves_value_in_storage_witness :
  test_reachable one ∧ isAlive 0 one = Ok true ∧
  ∃ m1 m2 ref, addComponent test_construct C0 0 7 one = Ok m1 ∧
               removeComponent C0 0 m1 = Ok m2 ∧
               hasComponent C0 0 m2 = Ok false ∧
               getEntityData C0 0 m2 = Ok ref ∧
               load (componentsStorage m2) ref = Some (test_construct C0 7).
Proof.
  assert (isAlive 0 one = Ok true) as Hal by (vm_compute; reflexivity).
  split; [exact one_reachable|]. split; [exact Hal|].
  exact (removeComponent_leaves_value_in_storage (Tag := TestTag) test_construct
           test_default C0 0 7 one one_reachable Hal).
Defined.

Lemma getEntityData_fails_only_beyond_capacity_witness :
  test_reachable fresh ∧
  getEntityData C0 (currentCapacity fresh) fresh = Fail OutOfRange.
Proof.
  split; [exact fresh_reachable|].
  destruct (getEntityData_fails_only_beyond_capacity (Tag := TestTag) test_construct
              test_default C0 (currentCapacity fresh) fresh fresh_reachable) as [Hfail _].
  exact (proj1 (Hfail (le_n _))).
Defined.

Lemma addEntity_keeps_existing_entities_witness :
  test_reachable three ∧
  ∃ m', addEntity test_default three = Ok (currentSize three, m') ∧
        currentSize m' = S (currentSize three) ∧
        ∀ i, i < currentSize three → entities m' !! i = entities three !! i.
Proof.
  split; [exact three_reachable|].
  destruct (addEntity_keeps_existing_entities (Tag := TestTag) test_construct
              test_default three three_reachable) as (m' & H1 & H2 & _ & H4 & _).
  exists m'. exact (conj H1 (conj H2 H4)).
Defined.

Lemma addEntity_without_cleanup_gives_own_index_witness :
  reachable_without_cleanup (Tag := TestTag) test_construct test_default three ∧
  ∃ m', addEntity test_default three = Ok (currentSize three, m') ∧
        getEntityInfo (currentSize three) m' = Ok (true, currentSize three, 0%N).
Proof.
  split; [exact three_reachable_without_cleanup|].
  exact (proj2 (addEntity_without_cleanup_gives_own_index test_construct test_default
                  three three_reachable_without_cleanup)).
Defined.

Lemma forMatchingSignature_ignores_deleted_entity_witness :
  test_reachable tagged ∧ deleteEntity 1 tagged = Ok populated ∧
  forMatchingSignature sig_empty log_handler populated []
    = Ok (run_calls log_handler (spec_calls sig_empty populated) populated []) ∧
  (1 ∉ (spec_calls sig_empty populated).*1).
Proof.
  assert (deleteEntity 1 tagged = Ok populated) as Hdel by (vm_compute; reflexivity).
  split; [exact tagged_reachable|]. split; [exact Hdel|].
  destruct (forMatchingSignature_ignores_deleted_entity test_construct test_default
              1 tagged populated sig_empty log_handler [] tagged_reachable Hdel)
    as (H1 & H2 & _).
  exact (conj H1 H2).
Defined.

Lemma forMatchingSignature_excludes_removed_component_witness :
  test_reachable with_component ∧
  removeComponent C0 0 with_component = Ok component_removed ∧
  inl C0 ∈ sig_C0 ∧
  forMatchingSignature sig_C0 log_handler component_removed []
    = Ok (run_calls log_handler (spec_calls sig_C0 component_removed)
            component_removed []) ∧
  (0 ∉ (spec_calls sig_C0 component_removed).*1).
Proof.
  assert (removeComponent C0 0 with_component = Ok component_removed) as Hrem
    by (vm_compute; reflexivity).
  assert (inl C0 ∈ sig_C0) as Hin by (left).
  split; [exact with_component_reachable|]. split; [exact Hrem|]. split; [exact Hin|].
  exact (forMatchingSignature_excludes_removed_component test_construct test_default
           C0 0 with_component component_removed sig_C0 log_handler []
           with_component_reachable Hrem Hin).
Defined.

Lemma registered_reachable : test_reachable registered.
Proof.
  apply reach_addForMatchingFunction, reach_addForMatchingFunction.
  apply populated_reachable.
Qed.

(** On [registered] both stored functions run: the log holds the call of
    the second, and the components read afterwards are incremented by the
    first. *)
Example callForMatchingFunctions_registered :
  length (forMatchingFunctions registered) = 2 ∧
  (r ← callForMatchingFunctions registered [];
   Ok (r.2, load (componentsStorage r.1) (C0, 0), load (componentsStorage r.1) (C0, 2)))
  = Ok ([(2, [(C0, 2)])], Some 6, Some 8).
Proof. split; by vm_compute. Qed.

Lemma callForMatchingFunctions_returns_witness :
  test_reachable registered ∧
  callForMatchingFunctions registered []
    = Ok (foldl (λ st cl, run_calls (cl_function cl) (closure_calls cl registered)
                            st.1 st.2)
            (registered, []) (forMatchingFunctions registered)) ∧
  ∃ m' w', callForMatchingFunctions registered [] = Ok (m', w') ∧
           same_table registered m'.
Proof.
  split; [exact registered_reachable|].
  destruct (callForMatchingFunctions_returns (Tag := TestTag) test_construct
              test_default registered [] registered_reachable) as (H1 & _ & H3 & _).
  exact (conj H1 H3).
Defined.

Lemma vectors_are_sized_to_capacity_witness :
  test_reachable three ∧
  length (entities three) = currentCapacity three ∧
  (∀ c, length (componentsStorage three c) = currentCapacity three) ∧
  currentSize three ≤ currentCapacity three ∧
  EC_INIT_ENTITIES_SIZE ≤ currentCapacity three.
Proof.
  split; [exact three_reachable|].
  exact (vectors_are_sized_to_capacity (Tag := TestTag) test_construct test_default
           three three_reachable).
Defined.
